(** * Backup Photos: the deduplicating copy engine of [backup_photos.py]

    A shallow embedding of [get_file_hash], [build_destination_hash_cache],
    [check_duplicate], [rsync_file] and the per-file loop of
    [process_photos], together with the file-system fragment they observe,
    and the properties of the engine stated over that embedding. *)

From Stdlib Require Import ZArith Ascii Strings.Byte.
From stdpp Require Import gmap strings list fin_maps.

(* ===================================================================== *)
(** ** SHA-256, as computed by [hashlib.sha256] *)
(* ===================================================================== *)

Module Sha256.

Local Open Scope Z_scope.

Definition w32 (x : Z) : Z := x mod 2 ^ 32.

Definition rotr (n x : Z) : Z :=
  Z.lor (Z.shiftr x n) (w32 (Z.shiftl x (32 - n))).

Definition Ch (x y z : Z) : Z :=
  Z.lxor (Z.land x y) (Z.land (Z.lxor x 0xffffffff) z).

Definition Maj (x y z : Z) : Z :=
  Z.lxor (Z.lxor (Z.land x y) (Z.land x z)) (Z.land y z).

Definition Sigma0 (x : Z) : Z :=
  Z.lxor (Z.lxor (rotr 2 x) (rotr 13 x)) (rotr 22 x).

Definition Sigma1 (x : Z) : Z :=
  Z.lxor (Z.lxor (rotr 6 x) (rotr 11 x)) (rotr 25 x).

Definition sigma0 (x : Z) : Z :=
  Z.lxor (Z.lxor (rotr 7 x) (rotr 18 x)) (Z.shiftr x 3).

Definition sigma1 (x : Z) : Z :=
  Z.lxor (Z.lxor (rotr 17 x) (rotr 19 x)) (Z.shiftr x 10).

(** The constants of FIPS 180-4 are defined from the first primes: the
    round constants are the first thirty-two bits of the fractional parts
    of their cube roots, the initial registers those of their square
    roots. *)
Definition is_prime (n : Z) : bool :=
  (1 <? n)
  && forallb (fun k => negb (n mod Z.of_nat k =? 0))
       (seq 2 (Z.to_nat n - 2)).

Definition primes_below (bound : nat) : list Z :=
  filter (fun n => is_prime n = true) (map Z.of_nat (seq 2 (bound - 2))).

(** The largest [r] of [lo, hi) with [pow r <= target], for monotone
    [pow], by bisection. *)
Fixpoint root_search (fuel : nat) (pow : Z -> Z) (lo hi target : Z) : Z :=
  match fuel with
  | O => lo
  | S k =>
      let mid := (lo + hi) / 2 in
      if pow mid <=? target then root_search k pow mid hi target
      else root_search k pow lo mid target
  end.

Definition frac_cube_root (p : Z) : Z :=
  w32 (root_search 40 (fun r => r * r * r) 0 (2 ^ 35) (p * 2 ^ 96)).

Definition frac_square_root (p : Z) : Z :=
  w32 (root_search 40 (fun r => r * r) 0 (2 ^ 35) (p * 2 ^ 64)).

Definition K : list Z := map frac_cube_root (primes_below 312).

(** The eight working registers. *)
Record regs : Type :=
  Regs { ra : Z; rb : Z; rc : Z; rd : Z; re : Z; rf : Z; rg : Z; rh : Z }.

Definition H0 : regs :=
  match map frac_square_root (primes_below 20) with
  | [a; b; c; d; e; f; g; h] => Regs a b c d e f g h
  | _ => Regs 0 0 0 0 0 0 0 0
  end.

(** Message schedule; [w] holds the words computed so far, newest first. *)
Fixpoint expand (n : nat) (w : list Z) : list Z :=
  match n with
  | O => w
  | S k =>
      let x := w32 (sigma1 (nth 1 w 0) + nth 6 w 0
                    + sigma0 (nth 14 w 0) + nth 15 w 0) in
      expand k (x :: w)
  end.

Definition schedule (block : list Z) : list Z :=
  rev (expand 48 (rev block)).

Definition round (s : regs) (kw : Z * Z) : regs :=
  let t1 := rh s + Sigma1 (re s) + Ch (re s) (rf s) (rg s) + fst kw + snd kw in
  let t2 := Sigma0 (ra s) + Maj (ra s) (rb s) (rc s) in
  Regs (w32 (t1 + t2)) (ra s) (rb s) (rc s)
       (w32 (rd s + t1)) (re s) (rf s) (rg s).

Definition compress (s : regs) (block : list Z) : regs :=
  let t := fold_left round (combine K (schedule block)) s in
  Regs (w32 (ra s + ra t)) (w32 (rb s + rb t))
       (w32 (rc s + rc t)) (w32 (rd s + rd t))
       (w32 (re s + re t)) (w32 (rf s + rf t))
       (w32 (rg s + rg t)) (w32 (rh s + rh t)).

(** Big-endian bytes of [x], [n] of them. *)
Fixpoint be_bytes (n : nat) (x : Z) : list Z :=
  match n with
  | O => []
  | S k => (Z.shiftr x (8 * Z.of_nat k)) mod 256 :: be_bytes k x
  end.

Definition pad (msg : list Z) : list Z :=
  let len := Z.of_nat (length msg) in
  msg ++ [0x80] ++ repeat 0 (Z.to_nat ((55 - len) mod 64))
      ++ be_bytes 8 (8 * len).

(** Big-endian 32-bit words of a byte string whose length is a
    multiple of four. *)
Fixpoint words (fuel : nat) (bs : list Z) : list Z :=
  match fuel, bs with
  | S k, b0 :: b1 :: b2 :: b3 :: rest =>
      (Z.shiftl b0 24 + Z.shiftl b1 16 + Z.shiftl b2 8 + b3) :: words k rest
  | _, _ => []
  end.

Fixpoint blocks (fuel : nat) (ws : list Z) (s : regs) : regs :=
  match fuel with
  | O => s
  | S k =>
      match ws with
      | [] => s
      | _ => blocks k (skipn 16 ws) (compress s (firstn 16 ws))
      end
  end.

Definition digest (msg : list byte) : regs :=
  let bs := pad (map (fun b => Z.of_N (Byte.to_N b)) msg) in
  let ws := words (length bs) bs in
  blocks (length ws) ws H0.

Definition hexdigit (x : Z) : ascii :=
  match String.get (Z.to_nat (x mod 16)) "0123456789abcdef" with
  | Some c => c
  | None => "0"%char
  end.

Definition hex_word (w : Z) (rest : string) : string :=
  String (hexdigit (Z.shiftr w 28)) (String (hexdigit (Z.shiftr w 24))
 (String (hexdigit (Z.shiftr w 20)) (String (hexdigit (Z.shiftr w 16))
 (String (hexdigit (Z.shiftr w 12)) (String (hexdigit (Z.shiftr w 8))
 (String (hexdigit (Z.shiftr w 4))  (String (hexdigit w) rest))))))).

(** [hashlib.sha256(msg).hexdigest()] *)
Definition hexdigest (msg : list byte) : string :=
  let s := digest msg in
  hex_word (ra s) (hex_word (rb s) (hex_word (rc s) (hex_word (rd s)
 (hex_word (re s) (hex_word (rf s) (hex_word (rg s) (hex_word (rh s)
  ""))))))).

End Sha256.

(* ===================================================================== *)
(** ** The file-system fragment the engine observes *)
(* ===================================================================== *)

(** A path is the list of its components below a root: [DESTINATION] for
    destination paths, [originals_path] for source paths. *)
Abbreviation path := (list string).

Record regfile : Type := RegFile { data : list byte; readable : bool }.

(** What a name in the destination tree denotes.  A symbolic link carries
    the regular file it resolves to, or nothing when it dangles; links to
    directories are outside the fragment. *)
Inductive node : Type :=
| Regular (f : regfile)
| Directory
| Special
| Symlink (target : option regfile).

(** The regular file that [os.stat] and [open] reach through the name;
    both follow symbolic links. *)
Definition resolve (n : node) : option regfile :=
  match n with
  | Regular f => Some f
  | Symlink target => target
  | Directory | Special => None
  end.

(** [Path.is_file()], [Path.is_dir()], [Path.is_symlink()] *)
Definition is_file (n : node) : bool :=
  match resolve n with Some _ => true | None => false end.

Definition is_dir (n : node) : bool :=
  match n with Directory => true | _ => false end.


(** [Path.stat().st_size]; the engine asks for it on destination names
    only after [is_file] answered yes. *)
Definition st_size (n : node) : nat :=
  match resolve n with Some f => length (data f) | None => 0 end.

(** The destination tree: every name below [DESTINATION]. *)
Abbreviation fs := (gmap (list string) node).

(** [dest_dir.rglob("*")]: every name below the root, in the order the
    directory scan yields them. *)
Definition rglob (d : fs) : list (path * node) := map_to_list d.

(** One file name handed out by [os.walk(originals_path)]: the directory
    [root] it was listed in, its name, and what is behind the name.
    [Broken] is a name whose [stat] fails (a dangling link, a file removed
    after it was listed). *)
Inductive src_entry : Type :=
| Present (f : regfile)
| Broken.

Record walked : Type :=
  Walked { w_root : path; w_file : string; w_entry : src_entry }.

Definition entry_file (e : src_entry) : option regfile :=
  match e with Present f => Some f | Broken => None end.

(** [Path(root) / file], relative to [originals_path] *)
Definition src_path (it : walked) : path := w_root it ++ [w_file it].

(* ===================================================================== *)
(** ** Effects: exceptions, the destination tree, the emitted events *)
(* ===================================================================== *)

Inductive exn : Type :=
| FileNotFoundError
| FileExistsError
| NotADirectoryError
| CalledProcessError.

Inductive result (A : Type) : Type :=
| Ok (a : A)
| Raise (e : exn).
Arguments Ok {A} a.
Arguments Raise {A} e.

Inductive tree : Type := Src | Dst.

(** What a computation leaves behind besides the tree: the file reads of
    [get_file_hash] and the records handed to [logging]. *)
Inductive event : Type :=
| HashOpen (t : tree) (p : path)
| LogHashFailed (t : tree) (p : path)
| LogBuilding
| LogCacheBuilt (entries : nat)
| LogDuplicateFound (src dst : path)
| LogSkipNonMedia (src : path)
| LogSkipDuplicate (src : path)
| LogCopied (src dest_dir : path)
| LogCopyFailed (src : path)
| LogErrorCopying (src : path)
| LogBackupComplete (copied skipped total : nat).

(** A computation reads and writes the destination tree, emits events and
    either returns or raises; the tree and the events survive a raise. *)
Definition M (A : Type) : Type := fs -> result A * fs * list event.

Definition ret {A} (a : A) : M A := fun d => (Ok a, d, []).

Definition bind {A B} (m : M A) (k : A -> M B) : M B :=
  fun d =>
    match m d with
    | (Ok a, d1, t1) =>
        match k a d1 with (r, d2, t2) => (r, d2, t1 ++ t2) end
    | (Raise e, d1, t1) => (Raise e, d1, t1)
    end.

Definition raise {A} (e : exn) : M A := fun d => (Raise e, d, []).

Definition emit (ev : event) : M unit := fun d => (Ok tt, d, [ev]).

Definition get_dest : M fs := fun d => (Ok d, d, []).

Definition put_dest (d' : fs) : M unit := fun _ => (Ok tt, d', []).

(** [try: m  except Exception as e: ...]: the raise becomes a value. *)
Definition try {A} (m : M A) : M (result A) :=
  fun d => match m d with (r, d1, t1) => (Ok r, d1, t1) end.

Declare Scope eff_scope.
Delimit Scope eff_scope with eff.
Notation "x <- m ;; k" := (bind m (fun x => k))
  (at level 100, m at next level, right associativity) : eff_scope.
Notation "m ;; k" := (bind m (fun _ => k))
  (at level 100, right associativity) : eff_scope.
Local Open Scope eff_scope.

(* ===================================================================== *)
(** ** [get_file_hash] *)
(* ===================================================================== *)

(** [iter(lambda: f.read(size), b"")]: the chunks read until the empty one. *)
Fixpoint read_chunks (fuel size : nat) (bs : list byte) : list (list byte) :=
  match fuel with
  | O => []
  | S k =>
      match bs with
      | [] => []
      | _ => firstn size bs :: read_chunks k size (skipn size bs)
      end
  end.

Definition CHUNK : nat := 4096.

(** The hash object holds the bytes fed to it; [update] appends. *)
Definition sha256_update (fed chunk : list byte) : list byte := fed ++ chunk.

Definition hash_bytes (bs : list byte) : string :=
  Sha256.hexdigest
    (fold_left sha256_update (read_chunks (length bs) CHUNK bs) []).

(** [get_file_hash(file_path)], for a name of tree [t] that resolves to
    [o].  Every failure to open or read is caught, logged and turned into
    [None]. *)
Definition get_file_hash (t : tree) (p : path) (o : option regfile)
  : M (option string) :=
  emit (HashOpen t p);;
  match o with
  | Some f =>
      if readable f then ret (Some (hash_bytes (data f)))
      else (emit (LogHashFailed t p);; ret None)
  | None => emit (LogHashFailed t p);; ret None
  end.

(** The value of [h] where Python's [if h:] takes the branch: neither
    [None] nor the empty string. *)
Definition truthy (h : option string) : option string :=
  match h with
  | Some s => if String.eqb s "" then None else Some s
  | None => None
  end.

(* ===================================================================== *)
(** ** [build_destination_hash_cache] and [check_duplicate] *)
(* ===================================================================== *)

(** The body of [for dest_file in dest_dir.rglob("*")] in
    [build_destination_hash_cache]. *)
Fixpoint build_loop (entries : list (path * node))
    (hash_cache : gmap string path) : M (gmap string path) :=
  match entries with
  | [] => ret hash_cache
  | (dest_file, n) :: rest =>
      if is_file n then
        file_hash <- get_file_hash Dst dest_file (resolve n);;
        match truthy file_hash with
        | Some h => build_loop rest (<[h := dest_file]> hash_cache)
        | None => build_loop rest hash_cache
        end
      else build_loop rest hash_cache
  end.

Definition build_destination_hash_cache : M (gmap string path) :=
  emit LogBuilding;;
  d <- get_dest;;
  hash_cache <- build_loop (rglob d) ∅;;
  emit (LogCacheBuilt (size hash_cache));;
  ret hash_cache.

(** The body of [for dest_file in dest_dir.rglob("*")] in
    [check_duplicate]; [src_hash] is the local of that name. *)
Fixpoint scan_destination (src_file : path) (f : regfile)
    (hash_cache : gmap string path) (src_size : nat)
    (entries : list (path * node)) (src_hash : option string) : M bool :=
  match entries with
  | [] => ret false
  | (dest_file, n) :: rest =>
      if is_file n && (st_size n =? src_size)%nat then
        let lookup_cache (h : string) : M bool :=
          match hash_cache !! h with
          | Some found => emit (LogDuplicateFound src_file found);; ret true
          | None =>
              scan_destination src_file f hash_cache src_size rest (Some h)
          end in
        match src_hash with
        | None =>
            computed <- get_file_hash Src src_file (Some f);;
            match truthy computed with
            | None => ret false
            | Some h => lookup_cache h
            end
        | Some h => lookup_cache h
        end
      else scan_destination src_file f hash_cache src_size rest src_hash
  end.

(** [check_duplicate(src_file, hash_cache, dest_dir)].  [src_file.stat()]
    is outside any [try]: on a broken name it raises. *)
Definition check_duplicate (src_file : path) (e : src_entry)
    (hash_cache : gmap string path) : M bool :=
  match e with
  | Broken => raise FileNotFoundError
  | Present f =>
      d <- get_dest;;
      scan_destination src_file f hash_cache (length (data f)) (rglob d) None
  end.

(* ===================================================================== *)
(** ** [mkdir(parents=True, exist_ok=True)] and [rsync_file] *)
(* ===================================================================== *)

(** The non-empty prefixes of a path, shortest first. *)
Fixpoint prefixes (p : path) : list path :=
  match p with
  | [] => []
  | c :: rest => [c] :: map (cons c) (prefixes rest)
  end.

(** Every prefix must be a directory or is created as one; a prefix held
    by something else raises, [FileExistsError] at the path itself and
    [NotADirectoryError] at an ancestor. *)
Fixpoint mkdir_each (target : path) (ps : list path) (d : fs) : result fs :=
  match ps with
  | [] => Ok d
  | q :: rest =>
      match d !! q with
      | Some n =>
          if is_dir n then mkdir_each target rest d
          else Raise (if bool_decide (q = target) then FileExistsError
                      else NotADirectoryError)
      | None => mkdir_each target rest (<[q := Directory]> d)
      end
  end.

Definition mkdir_parents (p : path) : M unit :=
  fun d =>
    match mkdir_each p (prefixes p) d with
    | Ok d' => (Ok tt, d', [])
    | Raise e => (Raise e, d, [])
    end.

(* ===================================================================== *)
(** ** The checks before the run: [check_mount], [check_permissions],
       [find_originals_path] *)
(* ===================================================================== *)

(** What [DESTINATION] is when the program starts. *)
Inductive root_state : Type := RootAbsent | RootDirectory | RootOther.

(** [os.listdir(PHOTOS_LIBRARY)]: it returns, raises [PermissionError],
    or raises another [OSError] (the library is missing). *)
Inductive listing : Type := Listed | Denied | Unlistable.

(** [input(...)]: Enter, Ctrl+C ([KeyboardInterrupt]), or the input is
    closed ([EOFError]). *)
Inductive keypress : Type := Entered | CtrlC | InputClosed.

(** [path.exists()]: true, false, or [PermissionError]. *)
Inductive probe : Type := Found | Missing | Forbidden.

(** The folders [find_originals_path] tries, in its order. *)
Inductive candidate : Type := Originals | Masters | ResourcesMedia.

(** What the machine answers to the checks, and the walk of each
    candidate folder. *)
Record host : Type :=
  Host { destination : root_state;
         first_listing : listing;
         prompt : keypress;
         second_listing : listing;
         exists_originals : probe;
         exists_masters : probe;
         exists_resources_media : probe;
         tree_of : candidate -> list walked }.

(** The exceptions that reach the handler of the main block. *)
Inductive failure : Type :=
| DestinationNotMounted
| LibraryUnlistable
| PromptClosed
| CannotAccessLibrary
| NoOriginalsFolder
| DestinationNotDirectory
| EngineError (e : exn).

(** The log records and printed lines outside the engine. *)
Inductive notice : Type :=
| LogDestinationNotMounted
| LogDestinationMounted
| LogAccessConfirmed
| LogPermissionDenied
| PrintGrantAccess
| LogAccessGranted
| LogStillNoAccess
| LogFoundOriginals (c : candidate)
| LogCandidateDenied (c : candidate)
| LogNoOriginals
| LogScanning (c : candidate)
| Engine (ev : event)
| PrintBackupComplete
| LogBackupFailed (f : failure)
| PrintBackupFailed (f : failure).

(** A call returns, raises an [Exception], or is interrupted by
    [KeyboardInterrupt], which is no [Exception]. *)
Inductive outcome (A : Type) : Type :=
| Returned (a : A)
| Failed (f : failure)
| Interrupted.
Arguments Returned {A} a.
Arguments Failed {A} f.
Arguments Interrupted {A}.

(** The checks emit notices and end in an outcome. *)
Definition Check (A : Type) : Type := list notice * outcome A.

Definition s_ret {A} (a : A) : Check A := ([], Returned a).

Definition s_bind {A B} (m : Check A) (k : A -> Check B) : Check B :=
  match m with
  | (n1, Returned a) => match k a with (n2, o) => (n1 ++ n2, o) end
  | (n1, Failed f) => (n1, Failed f)
  | (n1, Interrupted) => (n1, Interrupted)
  end.

Definition s_note (n : notice) : Check unit := ([n], Returned tt).

Definition s_fail {A} (f : failure) : Check A := ([], Failed f).

(** [check_mount()] *)
Definition check_mount (h : host) : Check unit :=
  match destination h with
  | RootAbsent =>
      s_bind (s_note LogDestinationNotMounted)
        (fun _ => s_fail DestinationNotMounted)
  | RootDirectory | RootOther => s_note LogDestinationMounted
  end.

(** The second [os.listdir], inside [except PermissionError]. *)
Definition retry_listing (h : host) : Check bool :=
  match second_listing h with
  | Listed => s_bind (s_note LogAccessGranted) (fun _ => s_ret true)
  | Denied => s_bind (s_note LogStillNoAccess) (fun _ => s_ret false)
  | Unlistable => s_fail LibraryUnlistable
  end.

(** [check_permissions()] *)
Definition check_permissions (h : host) : Check bool :=
  match first_listing h with
  | Listed => s_bind (s_note LogAccessConfirmed) (fun _ => s_ret true)
  | Unlistable => s_fail LibraryUnlistable
  | Denied =>
      s_bind (s_note LogPermissionDenied) (fun _ =>
      s_bind (s_note PrintGrantAccess) (fun _ =>
      match prompt h with
      | Entered => retry_listing h
      | CtrlC => ([], Interrupted)
      | InputClosed => s_fail PromptClosed
      end))
  end.

(** [possible_paths] with what [exists()] answers on each. *)
Definition possible_paths (h : host) : list (candidate * probe) :=
  [(Originals, exists_originals h);
   (Masters, exists_masters h);
   (ResourcesMedia, exists_resources_media h)].

(** The loop of [find_originals_path] and what follows it. *)
Fixpoint find_in (paths : list (candidate * probe)) : Check candidate :=
  match paths with
  | [] => s_bind (s_note LogNoOriginals) (fun _ => s_fail NoOriginalsFolder)
  | (c, Found) :: _ => s_bind (s_note (LogFoundOriginals c)) (fun _ => s_ret c)
  | (c, Missing) :: rest => find_in rest
  | (c, Forbidden) :: rest =>
      s_bind (s_note (LogCandidateDenied c)) (fun _ => find_in rest)
  end.

(** [find_originals_path()] *)
Definition find_originals_path (h : host) : Check candidate :=
  find_in (possible_paths h).

(** [DESTINATION.mkdir(parents=True, exist_ok=True)], reached only when
    [DESTINATION] exists. *)
Definition mkdir_destination (h : host) : Check unit :=
  match destination h with
  | RootDirectory => s_ret tt
  | RootAbsent | RootOther => s_fail DestinationNotDirectory
  end.

(** The head of [process_photos], up to the index build. *)
Definition startup (h : host) : Check candidate :=
  s_bind (check_mount h) (fun _ =>
  s_bind (check_permissions h) (fun ok =>
  if ok : bool then
    s_bind (find_originals_path h) (fun c =>
    s_bind (s_note (LogScanning c)) (fun _ =>
    s_bind (mkdir_destination h) (fun _ => s_ret c)))
  else s_fail CannotAccessLibrary)).

(** The warnings [find_originals_path] logs while passing over folders
    it may not look at. *)
Definition warnings (paths : list (candidate * probe)) : list notice :=
  flat_map (fun cp : candidate * probe =>
              match cp.2 with
              | Forbidden => [LogCandidateDenied cp.1]
              | Found | Missing => []
              end) paths.

(* ===================================================================== *)
(** ** [BackMeUp.py]: [copy_file_to_backup] *)
(* ===================================================================== *)

(** Here a tree holds absolute paths; the root is a directory. *)
Definition node_at (d : fs) (p : path) : option node :=
  match p with
  | [] => Some Directory
  | _ => d !! p
  end.

(** [os.path.isdir], [os.path.basename], [os.path.dirname] *)
Definition dir_at (d : fs) (p : path) : bool :=
  match node_at d p with Some n => is_dir n | None => false end.

Definition basename (p : path) : string := List.last p "".

Definition dirname (p : path) : path := removelast p.

Definition special_at (d : fs) (p : path) : bool :=
  match node_at d p with Some Special => true | _ => false end.

(** The classes of exception the handlers tell apart:
    [FileNotFoundError], [PermissionError], any other [Exception]. *)
Inductive copy_error : Type := CopyNotFound | CopyPermission | CopyOther.

(** What [open(dst, 'wb')] and the copy leave under the name: a link is
    written through, anything else becomes the file. *)
Definition written (old : option node) (f : regfile) : node :=
  match old with
  | Some (Symlink _) => Symlink (Some f)
  | _ => Regular f
  end.

(** [shutil.copyfile(src, dst)], in the order of its steps: the
    same-file test, the test for special files, [open(src, 'rb')],
    [open(dst, 'wb')], the copy.  [writable] tells whether the name may
    be created or overwritten. *)
Definition copyfile (writable : path -> bool) (src dst : path) (d : fs)
  : copy_error + fs :=
  if bool_decide (src = dst) && bool_decide (is_Some (node_at d src))
  then inl CopyOther
  else if special_at d src || special_at d dst then inl CopyOther
  else
    match node_at d src with
    | None => inl CopyNotFound
    | Some n =>
        if is_dir n then inl CopyOther
        else
          match resolve n with
          | None => inl CopyNotFound
          | Some f =>
              if negb (readable f) then inl CopyPermission
              else
                match node_at d (dirname dst) with
                | None => inl CopyNotFound
                | Some parent =>
                    if negb (is_dir parent) then inl CopyOther
                    else if dir_at d dst then inl CopyOther
                    else if negb (writable dst) then inl CopyPermission
                    else inr (<[dst := written (d !! dst) f]> d)
                end
          end
    end.

(** Where [shutil.copy2] writes: into [dst] when it is a directory. *)
Definition copy_target (d : fs) (src dst : path) : path :=
  if dir_at d dst then dst ++ [basename src] else dst.

(** [shutil.copy2(src, dst)] *)
Definition copy2 (writable : path -> bool) (src dst : path) (d : fs)
  : copy_error + fs :=
  copyfile writable src (copy_target d src dst) d.

(** The line [copy_file_to_backup] prints. *)
Inductive printed : Type :=
| PrintCopied (source_path destination_path : path)
| PrintNotFound (source_path : path)
| PrintPermissionDenied (destination_path : path)
| PrintUnexpected.

(** [copy_file_to_backup(source_path, destination_path)] *)
Definition copy_file_to_backup (writable : path -> bool)
    (source_path destination_path : path) (d : fs) : printed * fs :=
  match copy2 writable source_path destination_path d with
  | inr d' => (PrintCopied source_path destination_path, d')
  | inl CopyNotFound => (PrintNotFound source_path, d)
  | inl CopyPermission => (PrintPermissionDenied destination_path, d)
  | inl CopyOther => (PrintUnexpected, d)
  end.

Section Engine.

(** Whether the transfer of a source path fails for a reason outside
    the fragment: destination full, permission denied on the target
    directory. *)
Variable rsync_fails : path -> bool.

(** [rsync_file(src, dest)]: [rsync -a src dest] puts a copy of [src],
    bytes and permission bits, under its own name in the directory
    [dest], replacing what the name held.  It exits non-zero when it
    cannot read [src] or when [rsync_fails] says so, and then leaves the
    tree alone; the non-zero exit is logged and raised again. *)
Definition rsync_file (src : path) (name : string) (e : src_entry)
    (dest : path) : M unit :=
  match e with
  | Present f =>
      if readable f && negb (rsync_fails src) then
        d <- get_dest;;
        put_dest (<[dest ++ [name] := Regular f]> d);;
        emit (LogCopied src dest)
      else (emit (LogCopyFailed src);; raise CalledProcessError)
  | Broken => emit (LogCopyFailed src);; raise CalledProcessError
  end.

(* =================================================================== *)
(** ** [process_photos] *)
(* =================================================================== *)

Definition VALID_EXTENSIONS : list string :=
  [".jpg"; ".jpeg"; ".png"; ".heic"; ".mov"; ".mp4"; ".m4v"; ".gif";
   ".raw"; ".aaf"].

(** Index of the last ["."] of [s], counted from [i] at its head:
    [str.rfind]. *)
Fixpoint rfind_dot (s : string) (i : nat) : option nat :=
  match s with
  | EmptyString => None
  | String c rest =>
      match rfind_dot rest (S i) with
      | Some j => Some j
      | None => if Ascii.eqb c "." then Some i else None
      end
  end.

(** [PurePath.suffix] of a file name. *)
Definition suffix (name : string) : string :=
  match rfind_dot name 0 with
  | Some i =>
      if (0 <? i)%nat && (i <? String.length name - 1)%nat
      then String.substring i (String.length name - i) name
      else ""
  | None => ""
  end.

Definition lower_ascii (c : ascii) : ascii :=
  let n := nat_of_ascii c in
  if (65 <=? n)%nat && (n <=? 90)%nat then ascii_of_nat (n + 32) else c.

(** [str.lower] on the bytes of a name. *)
Fixpoint lower (s : string) : string :=
  match s with
  | EmptyString => EmptyString
  | String c rest => String (lower_ascii c) (lower rest)
  end.

(** [src_file.suffix.lower() in VALID_EXTENSIONS] *)
Definition is_media (name : string) : bool :=
  bool_decide (lower (suffix name) ∈ VALID_EXTENSIONS).

(** The locals of [process_photos] that the loop updates. *)
Record locals : Type :=
  Locals { hash_cache : gmap string path;
           copied_files : nat;
           skipped_files : nat }.

Definition skip (st : locals) : locals :=
  Locals (hash_cache st) (copied_files st) (S (skipped_files st)).

Definition copied (st : locals) : locals :=
  Locals (hash_cache st) (S (copied_files st)) (skipped_files st).

Definition remember (h : string) (dest_file : path) (st : locals) : locals :=
  Locals (<[h := dest_file]> (hash_cache st))
         (copied_files st) (skipped_files st).

(** The body of [for file in files]. *)
Definition process_file (it : walked) (st : locals) : M locals :=
  let src_file := src_path it in
  if negb (is_media (w_file it)) then
    emit (LogSkipNonMedia src_file);;
    ret (skip st)
  else
    dup <- check_duplicate src_file (w_entry it) (hash_cache st);;
    if dup : bool then
      emit (LogSkipDuplicate src_file);;
      ret (skip st)
    else
      let dest_file := src_path it in
      mkdir_parents (w_root it);;
      r <- try (rsync_file src_file (w_file it) (w_entry it) (w_root it));;
      match r with
      | Ok _ =>
          let st := copied st in
          src_hash <- get_file_hash Src src_file (entry_file (w_entry it));;
          match truthy src_hash with
          | Some h => ret (remember h dest_file st)
          | None => ret st
          end
      | Raise _ =>
          emit (LogErrorCopying src_file);;
          ret st
      end.

(** The two nested [for] loops over [os.walk(originals_path)], on the
    names in the order the loops visit them. *)
Fixpoint walk_loop (items : list walked) (st : locals) : M locals :=
  match items with
  | [] => ret st
  | it :: rest => st' <- process_file it st;; walk_loop rest st'
  end.

Record stats : Type :=
  Stats { total : nat; copied_total : nat; skipped_total : nat }.

(** [process_photos()] from the point where the destination is mounted,
    the library is accessible and [DESTINATION] is a directory. *)
Definition process_photos (items : list walked) : M stats :=
  cache <- build_destination_hash_cache;;
  let total_files :=
    length (filter (fun it => is_Some (entry_file (w_entry it))) items) in
  st <- walk_loop items (Locals cache 0 0);;
  emit (LogBackupComplete (copied_files st) (skipped_files st) total_files);;
  ret (Stats total_files (copied_files st) (skipped_files st)).

(* =================================================================== *)
(** ** Vocabulary of the properties *)
(* =================================================================== *)

(** The digest [get_file_hash] obtains through a destination name, when
    it obtains one. *)
Definition readable_digest (o : option regfile) : option string :=
  match o with
  | Some f => if readable f then Some (hash_bytes (data f)) else None
  | None => None
  end.

Definition digest_of (n : node) : option string :=
  readable_digest (resolve n).

(** The test of [check_duplicate] on one destination name. *)
Definition size_match (src_size : nat) (e : path * node) : bool :=
  is_file e.2 && (st_size e.2 =? src_size)%nat.

(** Some name of the tree resolves to a regular file of that size. *)
Definition has_size (d : fs) (src_size : nat) : Prop :=
  exists q n, d !! q = Some n /\ is_file n = true /\ st_size n = src_size.

(** Some name of the tree hashes to [h]. *)
Definition has_digest (d : fs) (h : string) : Prop :=
  exists q n, d !! q = Some n /\ digest_of n = Some h.

(** The answer and the events of [check_duplicate] on a present file,
    in closed form. *)
Definition classify (src_file : path) (f : regfile)
    (cache : gmap string path) (entries : list (path * node))
  : bool * list event :=
  if existsb (size_match (length (data f))) entries then
    if readable f then
      match cache !! hash_bytes (data f) with
      | Some found =>
          (true, [HashOpen Src src_file; LogDuplicateFound src_file found])
      | None => (false, [HashOpen Src src_file])
      end
    else (false, [HashOpen Src src_file; LogHashFailed Src src_file])
  else (false, []).

(** The index a destination listing builds, and the events of building. *)
Definition index_step (cache : gmap string path) (e : path * node)
  : gmap string path :=
  match digest_of e.2 with
  | Some h => <[h := e.1]> cache
  | None => cache
  end.

Definition index_events (e : path * node) : list event :=
  if is_file e.2 then
    match digest_of e.2 with
    | Some _ => [HashOpen Dst e.1]
    | None => [HashOpen Dst e.1; LogHashFailed Dst e.1]
    end
  else [].

Definition built_index (d : fs) : gmap string path :=
  fold_left index_step (rglob d) ∅.

Definition build_trace (d : fs) : list event :=
  LogBuilding :: concat (map index_events (rglob d))
    ++ [LogCacheBuilt (size (built_index d))].

(** [total_files]: the walked names that resolve to a regular file. *)
Definition count_files (items : list walked) : nat :=
  length (filter (fun it => is_Some (entry_file (w_entry it))) items).

(** How many times a trace opened a file of tree [t] for hashing. *)
Definition is_hash_open (t : tree) (ev : event) : bool :=
  match ev, t with
  | HashOpen Src _, Src | HashOpen Dst _, Dst => true
  | _, _ => false
  end.

Definition hash_reads (t : tree) (tr : list event) : nat :=
  length (filter (fun ev => is_hash_open t ev = true) tr).

(** The source path an event speaks about. *)
Definition event_src (ev : event) : option path :=
  match ev with
  | HashOpen Src p | LogHashFailed Src p => Some p
  | LogDuplicateFound p _ | LogSkipNonMedia p | LogSkipDuplicate p
  | LogCopied p _ | LogCopyFailed p | LogErrorCopying p => Some p
  | _ => None
  end.

(** The transfer of [it] succeeded somewhere in the trace. *)
Definition was_copied (it : walked) (tr : list event) : Prop :=
  LogCopied (src_path it) (w_root it) ∈ tr.





(** The six ways the body of the loop ends on one name: what it
    returns or raises, the tree it leaves, the events it emits. *)
Inductive file_step (it : walked) (st : locals) (d : fs)
  : result locals -> fs -> list event -> Prop :=
| step_non_media :
    is_media (w_file it) = false ->
    file_step it st d (Ok (skip st)) d [LogSkipNonMedia (src_path it)]
| step_broken :
    is_media (w_file it) = true ->
    w_entry it = Broken ->
    file_step it st d (Raise FileNotFoundError) d []
| step_duplicate f tr :
    is_media (w_file it) = true ->
    w_entry it = Present f ->
    classify (src_path it) f (hash_cache st) (rglob d) = (true, tr) ->
    file_step it st d (Ok (skip st)) d
      (tr ++ [LogSkipDuplicate (src_path it)])
| step_mkdir_raise f tr e :
    is_media (w_file it) = true ->
    w_entry it = Present f ->
    classify (src_path it) f (hash_cache st) (rglob d) = (false, tr) ->
    mkdir_each (w_root it) (prefixes (w_root it)) d = Raise e ->
    file_step it st d (Raise e) d tr
| step_copy_failed f tr d1 :
    is_media (w_file it) = true ->
    w_entry it = Present f ->
    classify (src_path it) f (hash_cache st) (rglob d) = (false, tr) ->
    mkdir_each (w_root it) (prefixes (w_root it)) d = Ok d1 ->
    readable f && negb (rsync_fails (src_path it)) = false ->
    file_step it st d (Ok st) d1
      (tr ++ [LogCopyFailed (src_path it); LogErrorCopying (src_path it)])
| step_copied f tr d1 :
    is_media (w_file it) = true ->
    w_entry it = Present f ->
    classify (src_path it) f (hash_cache st) (rglob d) = (false, tr) ->
    mkdir_each (w_root it) (prefixes (w_root it)) d = Ok d1 ->
    readable f && negb (rsync_fails (src_path it)) = true ->
    file_step it st d
      (Ok (remember (hash_bytes (data f)) (src_path it) (copied st)))
      (<[src_path it := Regular f]> d1)
      (tr ++ [LogCopied (src_path it) (w_root it);
              HashOpen Src (src_path it)]).


(* =================================================================== *)
(** ** Concrete files, trees and walks *)
(* =================================================================== *)

Definition bytes_x : list byte := ["x"%byte; "1"%byte].
Definition bytes_y : list byte := ["y"%byte; "2"%byte].
Definition bytes_z : list byte := ["z"%byte].

Definition photo_x : regfile := RegFile bytes_x true.
Definition photo_y : regfile := RegFile bytes_y true.
Definition notes_z : regfile := RegFile bytes_z true.
Definition locked_x : regfile := RegFile bytes_x false.

(** The walk of the first scenario of the specification, with one of
    the twins in a subdirectory and in upper case. *)
Definition a_jpg : walked := Walked [] "a.jpg" (Present photo_x).
Definition b_jpg : walked := Walked ["sub"] "b.JPG" (Present photo_x).
Definition c_png : walked := Walked [] "c.png" (Present photo_y).
Definition d_txt : walked := Walked [] "d.txt" (Present notes_z).
Definition scenario_walk : list walked := [a_jpg; b_jpg; c_png; d_txt].

(** A destination that already holds a two-byte photo. *)
Definition old_dest : fs := {[ ["old.jpg"] := Regular photo_y ]}.



(** An unreadable twin of [a.jpg], and a transfer that fails on it. *)
Definition u_jpg : walked := Walked [] "u.jpg" (Present locked_x).
Definition never_fails : path -> bool := fun _ => false.
Definition fails_on_c : path -> bool := fun p => bool_decide (p = ["c.png"]).

(* ===================================================================== *)
(** ** Vocabulary of the further properties *)
(* ===================================================================== *)

(** The characters of [hexdigest()]. *)
Definition hex_chars : list ascii :=
  String.list_ascii_of_string "0123456789abcdef".

(** How many events of a trace satisfy a test. *)
Definition count_events (test : event -> bool) (tr : list event) : nat :=
  length (filter (fun ev => test ev = true) tr).

Definition is_copied_event (ev : event) : bool :=
  match ev with LogCopied _ _ => true | _ => false end.

Definition is_skip_event (ev : event) : bool :=
  match ev with LogSkipNonMedia _ | LogSkipDuplicate _ => true | _ => false end.

Definition is_error_event (ev : event) : bool :=
  match ev with LogErrorCopying _ => true | _ => false end.


(** [process_photos()] whole: the checks, then the engine on the walk of
    the folder found, then the closing line. *)
Definition process_photos_whole (h : host) (d : fs)
  : list notice * outcome stats * fs :=
  match startup h with
  | (ns, Returned c) =>
      match process_photos (tree_of h c) d with
      | (Ok s, d', t) =>
          (ns ++ map Engine t ++ [PrintBackupComplete], Returned s, d')
      | (Raise e, d', t) => (ns ++ map Engine t, Failed (EngineError e), d')
      end
  | (ns, Failed f) => (ns, Failed f, d)
  | (ns, Interrupted) => (ns, Interrupted, d)
  end.


(** A notice of the engine. *)
Definition is_engine_notice (n : notice) : bool :=
  match n with Engine _ => true | _ => false end.

(** A notice of the checks: neither the engine's nor a closing line. *)
Definition is_check_notice (n : notice) : bool :=
  match n with
  | Engine _ | PrintBackupComplete | LogBackupFailed _ | PrintBackupFailed _ =>
      false
  | _ => true
  end.

(* ===================================================================== *)
(** ** Further concrete names and trees *)
(* ===================================================================== *)

(** A media name whose [stat] fails. *)
Definition gone_jpg : walked := Walked [] "gone.jpg" Broken.

(** A home directory with a note and an unreadable photo, and no
    [backup] directory beside it. *)
Definition home_tree : fs :=
  <[ ["home"] := Directory ]>
    (<[ ["home"; "a.txt"] := Regular notes_z ]>
       {[ ["home"; "locked.jpg"] := Regular locked_x ]}).

Definition always_writable : path -> bool := fun _ => true.

Definition five_bytes : list byte :=
  ["a"%byte; "b"%byte; "c"%byte; "d"%byte; "e"%byte].

Arguments hash_bytes : simpl never.

(* =================================================================== *)
(** ** Hashing *)
(* =================================================================== *)

Lemma fold_update_concat (chunks : list (list byte)) (fed : list byte) :
  fold_left sha256_update chunks fed = fed ++ concat chunks.
Proof.
  revert fed; induction chunks as [|c chunks IH]; intros fed; simpl.
  - by rewrite app_nil_r.
  - rewrite IH. unfold sha256_update. by rewrite <- app_assoc.
Qed.

Lemma read_chunks_concat (size fuel : nat) (bs : list byte) :
  (0 < size)%nat -> (length bs <= fuel)%nat ->
  concat (read_chunks fuel size bs) = bs.
Proof.
  intros Hsize. revert bs.
  induction fuel as [|k IH]; intros bs Hlen.
  - destruct bs; [done | simpl in Hlen; lia].
  - destruct bs as [|b bs]; [done|].
    change (read_chunks (S k) size (b :: bs))
      with (firstn size (b :: bs) :: read_chunks k size (skipn size (b :: bs))).
    rewrite concat_cons, IH; [apply firstn_skipn|].
    rewrite length_skipn. simpl in *. lia.
Qed.

(** Reading in chunks hashes the whole content. *)
Lemma hash_bytes_eq (bs : list byte) : hash_bytes bs = Sha256.hexdigest bs.
Proof.
  unfold hash_bytes. rewrite fold_update_concat. simpl.
  rewrite read_chunks_concat; [done | unfold CHUNK; lia | done].
Qed.

Lemma hexdigest_nonempty (bs : list byte) :
  String.eqb (Sha256.hexdigest bs) "" = false.
Proof. reflexivity. Qed.

Lemma truthy_hash (bs : list byte) :
  truthy (Some (hash_bytes bs)) = Some (hash_bytes bs).
Proof.
  unfold truthy. rewrite hash_bytes_eq. by rewrite hexdigest_nonempty.
Qed.

Lemma truthy_readable_digest (o : option regfile) :
  truthy (readable_digest o) = readable_digest o.
Proof.
  destruct o as [f|]; [|done]. unfold readable_digest.
  destruct (readable f); [apply truthy_hash | done].
Qed.

Lemma get_file_hash_eq (t : tree) (p : path) (o : option regfile) (d : fs) :
  get_file_hash t p o d =
    (Ok (readable_digest o), d,
     HashOpen t p ::
       match readable_digest o with
       | Some _ => []
       | None => [LogHashFailed t p]
       end).
Proof.
  unfold get_file_hash, readable_digest, bind, emit, ret.
  destruct o as [f|]; [destruct (readable f)|]; reflexivity.
Qed.

(* =================================================================== *)
(** ** [check_duplicate] in closed form *)
(* =================================================================== *)

Lemma scan_known (src_file : path) (f : regfile) (cache : gmap string path)
    (sz : nat) (entries : list (path * node)) (h : string) (d : fs) :
  cache !! h = None ->
  scan_destination src_file f cache sz entries (Some h) d = (Ok false, d, []).
Proof.
  intros Hc. induction entries as [|[q n] rest IH]; [done|].
  simpl. destruct (is_file n && (st_size n =? sz)%nat); [|exact IH].
  rewrite Hc. exact IH.
Qed.

Lemma scan_fresh (src_file : path) (f : regfile) (cache : gmap string path)
    (entries : list (path * node)) (d : fs) :
  scan_destination src_file f cache (length (data f)) entries None d =
    (Ok (classify src_file f cache entries).1, d,
     (classify src_file f cache entries).2).
Proof.
  induction entries as [|[q n] rest IH]; [done|].
  unfold classify in *. simpl.
  change (size_match (length (data f)) (q, n))
    with (is_file n && (st_size n =? length (data f))%nat).
  destruct (is_file n && (st_size n =? length (data f))%nat); simpl.
  - unfold bind. rewrite get_file_hash_eq, truthy_readable_digest. simpl.
    destruct (readable f); simpl; [|done].
    destruct (cache !! hash_bytes (data f)) as [found|] eqn:Hc; [done|].
    by rewrite scan_known.
  - exact IH.
Qed.

Lemma check_duplicate_present (src_file : path) (f : regfile)
    (cache : gmap string path) (d : fs) :
  check_duplicate src_file (Present f) cache d =
    (Ok (classify src_file f cache (rglob d)).1, d,
     (classify src_file f cache (rglob d)).2).
Proof.
  unfold check_duplicate, bind, get_dest. by rewrite scan_fresh.
Qed.

Lemma existsb_size_match (d : fs) (sz : nat) :
  existsb (size_match sz) (rglob d) = true <-> has_size d sz.
Proof.
  rewrite existsb_exists. unfold has_size, size_match, rglob. split.
  - intros [[q n] [Hin Hm]]. simpl in Hm.
    apply andb_true_iff in Hm as [Hf Hs]. apply Nat.eqb_eq in Hs.
    exists q, n. split; [|done].
    by apply elem_of_map_to_list, list_elem_of_In.
  - intros (q & n & Hq & Hf & Hs). exists (q, n). split.
    + by apply list_elem_of_In, elem_of_map_to_list.
    + simpl. rewrite Hf, Hs. by rewrite Nat.eqb_refl.
Qed.

(* =================================================================== *)
(** ** [build_destination_hash_cache] in closed form *)
(* =================================================================== *)

Lemma is_file_digest (n : node) : is_file n = false -> digest_of n = None.
Proof.
  unfold is_file, digest_of. by destruct (resolve n).
Qed.

Lemma build_loop_eq (entries : list (path * node))
    (cache : gmap string path) (d : fs) :
  build_loop entries cache d =
    (Ok (fold_left index_step entries cache), d,
     concat (map index_events entries)).
Proof.
  revert cache. induction entries as [|[q n] rest IH]; intros cache; [done|].
  simpl. unfold index_step at 2, index_events at 1. simpl.
  destruct (is_file n) eqn:Hf.
  - unfold bind. rewrite get_file_hash_eq, truthy_readable_digest.
    fold (digest_of n).
    destruct (digest_of n) as [h|]; rewrite IH; reflexivity.
  - rewrite (is_file_digest n Hf). apply IH.
Qed.

Lemma build_eq (d : fs) :
  build_destination_hash_cache d =
    (Ok (fold_left index_step (rglob d) ∅), d,
     LogBuilding :: concat (map index_events (rglob d))
       ++ [LogCacheBuilt (size (fold_left index_step (rglob d) ∅))]).
Proof.
  unfold build_destination_hash_cache, bind, emit, get_dest, ret.
  rewrite build_loop_eq. reflexivity.
Qed.

Lemma index_step_lookup (cache : gmap string path) (e : path * node)
    (h : string) :
  index_step cache e !! h =
    if bool_decide (digest_of e.2 = Some h) then Some e.1 else cache !! h.
Proof.
  unfold index_step. destruct (digest_of e.2) as [h'|].
  - case_bool_decide as Hh.
    + injection Hh as ->. apply lookup_insert_eq.
    + apply lookup_insert_ne. congruence.
  - by rewrite bool_decide_eq_false_2.
Qed.

(** The index maps a digest to the last name of the listing that hashes
    to it, and otherwise keeps what it held. *)
Lemma index_fold_lookup (entries : list (path * node))
    (cache : gmap string path) (h : string) (p : path) :
  fold_left index_step entries cache !! h = Some p <->
    (exists i n, entries !! i = Some (p, n) /\ digest_of n = Some h
                 /\ forall j q m, (i < j)%nat -> entries !! j = Some (q, m) ->
                                  digest_of m <> Some h)
    \/ (cache !! h = Some p
        /\ forall j q m, entries !! j = Some (q, m) -> digest_of m <> Some h).
Proof.
  revert cache. induction entries as [|[q0 n0] rest IH]; intros cache.
  - simpl. split; [intros H; right; by split | intros [(i & n & H & _)|[H _]]];
      [done | done].
  - simpl. rewrite IH, index_step_lookup. simpl. split.
    + intros [(i & n & Hi & Hn & Hlast) | [Hc Hnone]].
      * left. exists (S i), n. split; [done|]. split; [done|].
        intros [|j] q m Hlt Hj; [lia|]. apply (Hlast j q m); [lia | done].
      * case_bool_decide as Hd.
        -- injection Hc as <-. left. exists 0%nat, n0.
           split; [done|]. split; [done|].
           intros [|j] q m Hlt Hj; [lia|]. by apply (Hnone j q m).
        -- right. split; [done|].
           intros [|j] q m Hj; [by injection Hj as <- <- | by apply (Hnone j q m)].
    + intros [(i & n & Hi & Hn & Hlast) | [Hc Hnone]].
      * destruct i as [|i].
        -- injection Hi as -> ->. right.
           rewrite bool_decide_eq_true_2 by done. split; [done|].
           intros j q m Hj. apply (Hlast (S j) q m); [lia | done].
        -- left. exists i, n. split; [done|]. split; [done|].
           intros j q m Hlt Hj. apply (Hlast (S j) q m); [lia | done].
      * right. rewrite bool_decide_eq_false_2 by apply (Hnone 0%nat q0 n0 eq_refl).
        split; [done|].
        intros j q m Hj. by apply (Hnone (S j) q m).
Qed.

Lemma rglob_lookup (d : fs) (q : path) (n : node) :
  (exists i, rglob d !! i = Some (q, n)) <-> d !! q = Some n.
Proof.
  unfold rglob. rewrite <- elem_of_map_to_list. symmetry.
  apply list_elem_of_lookup.
Qed.

Lemma index_fold_keys (entries : list (path * node))
    (cache : gmap string path) (h : string) :
  is_Some (fold_left index_step entries cache !! h) <->
    is_Some (cache !! h)
    \/ exists q n, (q, n) ∈ entries /\ digest_of n = Some h.
Proof.
  revert cache. induction entries as [|[q0 n0] rest IH]; intros cache.
  - simpl. split; [by left | intros [H|(q & n & H & _)]; [done|]].
    by apply not_elem_of_nil in H.
  - simpl. rewrite IH, index_step_lookup. simpl. split.
    + intros [Hc | (q & n & Hin & Hn)].
      * case_bool_decide as Hd; [|by left].
        right. exists q0, n0. split; [left | done].
      * right. exists q, n. split; [by right | done].
    + intros [Hc | (q & n & Hin & Hn)].
      * left. case_bool_decide; [eauto | done].
      * apply elem_of_cons in Hin as [Heq | Hin].
        -- injection Heq as -> ->. left.
           rewrite bool_decide_eq_true_2 by done. eauto.
        -- right. eauto.
Qed.

(** The keys of a freshly built index are the digests the tree shows. *)
Lemma index_keys (d : fs) (h : string) :
  is_Some (fold_left index_step (rglob d) ∅ !! h) <-> has_digest d h.
Proof.
  rewrite index_fold_keys. unfold has_digest, rglob. split.
  - intros [[p Hp] | (q & n & Hin & Hn)]; [by rewrite lookup_empty in Hp|].
    exists q, n. split; [by apply elem_of_map_to_list | done].
  - intros (q & n & Hq & Hn). right. exists q, n.
    split; [by apply elem_of_map_to_list | done].
Qed.

(* =================================================================== *)
(** ** [mkdir] only adds directories *)
(* =================================================================== *)




(* =================================================================== *)
(** ** The body of the loop, case by case *)
(* =================================================================== *)

Lemma process_file_inv (it : walked) (st : locals) (d : fs)
    (r : result locals) (d' : fs) (t : list event) :
  process_file it st d = (r, d', t) -> file_step it st d r d' t.
Proof.
  unfold process_file.
  destruct (is_media (w_file it)) eqn:Hm; cbn [negb].
  2:{ intros [= <- <- <-]. by constructor. }
  destruct (w_entry it) as [f|] eqn:He.
  2:{ intros [= <- <- <-]. by constructor. }
  unfold bind at 1. rewrite check_duplicate_present.
  destruct (classify (src_path it) f (hash_cache st) (rglob d))
    as [[|] tr] eqn:Hc; cbn [fst snd].
  { intros [= <- <- <-]. by eapply step_duplicate. }
  unfold bind at 1, mkdir_parents.
  destruct (mkdir_each (w_root it) (prefixes (w_root it)) d)
    as [d1|e] eqn:Hmk.
  2:{ intros [= <- <- <-]. rewrite app_nil_r. by eapply step_mkdir_raise. }
  cbv beta iota delta [bind try rsync_file get_file_hash emit ret raise
                       get_dest put_dest entry_file].
  destruct (readable f && negb (rsync_fails (src_path it))) eqn:Hr.
  - apply andb_true_iff in Hr as Hr'. destruct Hr' as [Hread _].
    rewrite Hread, truthy_hash.
    intros [= <- <- <-]. by eapply step_copied.
  - intros [= <- <- <-]. by eapply step_copy_failed.
Qed.

Lemma process_file_step (it : walked) (st : locals) (d : fs) :
  file_step it st d (process_file it st d).1.1 (process_file it st d).1.2
    (process_file it st d).2.
Proof.
  destruct (process_file it st d) as [[r d'] t] eqn:H.
  by apply process_file_inv.
Qed.

Lemma file_step_run (it : walked) (st : locals) (d : fs)
    (r : result locals) (d' : fs) (t : list event) :
  file_step it st d r d' t -> process_file it st d = (r, d', t).
Proof.
  intros Hs. pose proof (process_file_step it st d) as Hp.
  destruct (process_file it st d) as [[r0 d0] t0]. simpl in Hp.
  destruct Hs; inversion Hp; subst; try congruence;
    repeat match goal with
           | H1 : w_entry it = _, H2 : w_entry it = _ |- _ =>
               rewrite H1 in H2; injection H2 as <-
           | H1 : classify _ _ _ _ = _, H2 : classify _ _ _ _ = _ |- _ =>
               rewrite H1 in H2; injection H2 as <-
           | H1 : mkdir_each _ _ _ = _, H2 : mkdir_each _ _ _ = _ |- _ =>
               rewrite H1 in H2; try injection H2 as <-
           end; try congruence; try done.
Qed.

(** A step speaks about its own source path only. *)
Lemma classify_events (p : path) (f : regfile) (cache : gmap string path)
    (entries : list (path * node)) (ev : event) :
  ev ∈ (classify p f cache entries).2 -> event_src ev = Some p.
Proof.
  unfold classify.
  destruct (existsb _ entries); [|by intros ?%not_elem_of_nil].
  destruct (readable f); [destruct (cache !! _)|]; simpl;
    rewrite ?elem_of_cons; intros H; repeat destruct H as [->|H]; try done;
    by apply not_elem_of_nil in H.
Qed.

Lemma file_step_events (it : walked) (st : locals) (d : fs)
    (r : result locals) (d' : fs) (t : list event) (ev : event) :
  file_step it st d r d' t -> ev ∈ t -> event_src ev = Some (src_path it).
Proof.
  intros Hs Hin.
  destruct Hs as [ | | f tr ? ? Hc | f tr e ? ? Hc | f tr d1 ? ? Hc
                   | f tr d1 ? ? Hc];
    try (pose proof (classify_events (src_path it) f (hash_cache st)
                       (rglob d) ev) as Hev; rewrite Hc in Hev; simpl in Hev);
    rewrite ?elem_of_app, ?elem_of_cons in Hin;
    repeat match goal with
           | H : _ \/ _ |- _ => destruct H as [H|H]
           | H : _ ∈ [] |- _ => by apply not_elem_of_nil in H
           end; subst; auto.
Qed.




(* =================================================================== *)
(** ** The loop *)
(* =================================================================== *)

Lemma walk_loop_cons (it : walked) (rest : list walked) (st : locals)
    (d : fs) :
  walk_loop (it :: rest) st d =
    match process_file it st d with
    | (Ok st1, d1, t1) =>
        match walk_loop rest st1 d1 with
        | (r, d2, t2) => (r, d2, t1 ++ t2)
        end
    | (Raise e, d1, t1) => (Raise e, d1, t1)
    end.
Proof. reflexivity. Qed.

Lemma walk_loop_app (l1 l2 : list walked) (st : locals) (d : fs) :
  walk_loop (l1 ++ l2) st d =
    match walk_loop l1 st d with
    | (Ok st1, d1, t1) =>
        match walk_loop l2 st1 d1 with
        | (r, d2, t2) => (r, d2, t1 ++ t2)
        end
    | (Raise e, d1, t1) => (Raise e, d1, t1)
    end.
Proof.
  revert st d. induction l1 as [|it l1 IH]; intros st d.
  - simpl. unfold ret. by destruct (walk_loop l2 st d) as [[r d2] t2].
  - rewrite <- app_comm_cons, !walk_loop_cons.
    destruct (process_file it st d) as [[[st1|e] d1] t1]; [|done].
    rewrite IH.
    destruct (walk_loop l1 st1 d1) as [[[st2|e] d2] t2]; [|done].
    destruct (walk_loop l2 st2 d2) as [[r d3] t3].
    by rewrite app_assoc.
Qed.



(** [process_photos] is the index build, the loop and the summary. *)
Lemma build_run (d : fs) :
  build_destination_hash_cache d = (Ok (built_index d), d, build_trace d).
Proof. apply build_eq. Qed.

Lemma process_photos_eq (items : list walked) (d : fs) :
  process_photos items d =
    match walk_loop items (Locals (built_index d) 0 0) d with
    | (Ok st, d', t) =>
        (Ok (Stats (count_files items)
                   (copied_files st) (skipped_files st)),
         d',
         build_trace d ++ t ++
           [LogBackupComplete (copied_files st) (skipped_files st)
              (count_files items)])
    | (Raise e, d', t) => (Raise e, d', build_trace d ++ t)
    end.
Proof.
  unfold process_photos. unfold bind at 1. rewrite build_run.
  unfold bind at 1. fold (count_files items).
  destruct (walk_loop items _ d) as [[[st|e] d'] t]; [|done].
  reflexivity.
Qed.

Lemma built_events (d : fs) (ev : event) :
  ev ∈ build_trace d -> event_src ev = None.
Proof.
  unfold build_trace. rewrite elem_of_cons, elem_of_app, list_elem_of_singleton.
  intros [->|[Hin| ->]]; [done | | done].
  apply list_elem_of_In, in_concat in Hin as (evs & Hevs & Hev).
  apply in_map_iff in Hevs as ([q n] & <- & _).
  apply list_elem_of_In in Hev.
  unfold index_events in Hev. simpl in Hev.
  destruct (is_file n); [|by apply not_elem_of_nil in Hev].
  destruct (digest_of n); rewrite ?elem_of_cons in Hev;
    repeat destruct Hev as [->|Hev]; try done;
    by apply not_elem_of_nil in Hev.
Qed.

(* =================================================================== *)
(** ** The duplicate classifier *)
(* =================================================================== *)


(** C1, as the code has it: when the hash of the source file cannot be
    computed (the file is unreadable and some destination name has its
    size, so that the hash is asked for), [check_duplicate] raises
    nothing and answers "not a duplicate", after one failed read that
    is logged; the tree is untouched. *)
Theorem C1_hash_failure_answers_not_duplicate (src_file : path)
    (f : regfile) (cache : gmap string path) (d : fs) :
  readable f = false ->
  has_size d (length (data f)) ->
  get_file_hash Src src_file (Some f) d =
    (Ok None, d, [HashOpen Src src_file; LogHashFailed Src src_file])
  /\ check_duplicate src_file (Present f) cache d =
       (Ok false, d, [HashOpen Src src_file; LogHashFailed Src src_file]).
Proof.
  intros Hr Hs. split.
  - rewrite get_file_hash_eq. simpl. by rewrite Hr.
  - rewrite check_duplicate_present. unfold classify.
    apply existsb_size_match in Hs. by rewrite Hs, Hr.
Qed.


(** C9: when no destination name resolves to a regular file of the
    source file's size, [check_duplicate] answers "not a duplicate"
    with no event at all, hence without opening the source file; two
    source files of that size get the same answer whatever their
    bytes, their readability and their paths. *)
Theorem C9_size_mismatch_skips_hashing (p1 p2 : path) (f1 f2 : regfile)
    (cache : gmap string path) (d : fs) :
  length (data f1) = length (data f2) ->
  ~ has_size d (length (data f1)) ->
  check_duplicate p1 (Present f1) cache d = (Ok false, d, [])
  /\ check_duplicate p2 (Present f2) cache d = (Ok false, d, [])
  /\ hash_reads Src (check_duplicate p1 (Present f1) cache d).2 = 0%nat.
Proof.
  intros Hlen Hno.
  assert (H1 : existsb (size_match (length (data f1))) (rglob d) = false).
  { destruct (existsb _ (rglob d)) eqn:He; [|done].
    by apply existsb_size_match in He. }
  assert (H2 : existsb (size_match (length (data f2))) (rglob d) = false).
  { by rewrite <- Hlen. }
  rewrite !check_duplicate_present. unfold classify. by rewrite H1, H2.
Qed.

(* =================================================================== *)
(** ** The index build *)
(* =================================================================== *)


(** C10: a destination file whose hashing fails does not make the build
    fail: the build returns an index, raises nothing and leaves the
    tree alone; the keys of the index are exactly the digests of the
    names that hashed, every path it holds is a name that hashed to its
    key, and a name whose hashing failed is nowhere in it. *)
Theorem C10_build_omits_unhashable_files (d : fs) :
  exists cache t,
    build_destination_hash_cache d = (Ok cache, d, t)
    /\ (forall h, is_Some (cache !! h) <-> has_digest d h)
    /\ (forall h p, cache !! h = Some p ->
           exists n, d !! p = Some n /\ digest_of n = Some h)
    /\ (forall p n, d !! p = Some n -> digest_of n = None ->
           forall h, cache !! h <> Some p)
    /\ (forall p n, d !! p = Some n -> is_file n = true ->
           digest_of n = None -> LogHashFailed Dst p ∈ t).
Proof.
  rewrite build_eq. eexists _, _. split; [reflexivity|].
  assert (Hval : forall h p,
    fold_left index_step (rglob d) ∅ !! h = Some p ->
    exists n, d !! p = Some n /\ digest_of n = Some h).
  { intros h p [(i & n & Hi & Hn & _) | [H _]]%index_fold_lookup;
      [|by rewrite lookup_empty in H].
    exists n. split; [|done]. apply rglob_lookup. eauto. }
  split; [apply index_keys|]. split; [exact Hval|]. split.
  - intros p n Hp Hn h Hc. apply Hval in Hc as (n' & Hp' & Hn'). congruence.
  - intros p n Hp Hf Hn. right. apply elem_of_app. left.
    apply list_elem_of_In, in_concat. exists (index_events (p, n)). split.
    + apply in_map, list_elem_of_In. by apply elem_of_map_to_list.
    + unfold index_events. simpl. rewrite Hf, Hn. right; left; reflexivity.
Qed.

(* =================================================================== *)
(** ** The transfer and the index update *)
(* =================================================================== *)






(* =================================================================== *)
(** ** Taking runs of the loop apart *)
(* =================================================================== *)

Lemma walk_loop_cons_inv (it : walked) (rest : list walked) (st : locals)
    (d : fs) (r : result locals) (d' : fs) (t : list event) :
  walk_loop (it :: rest) st d = (r, d', t) ->
  (exists e, process_file it st d = (Raise e, d', t) /\ r = Raise e)
  \/ (exists st1 d1 t1 t2,
        process_file it st d = (Ok st1, d1, t1)
        /\ walk_loop rest st1 d1 = (r, d', t2) /\ t = t1 ++ t2).
Proof.
  rewrite walk_loop_cons.
  destruct (process_file it st d) as [[[st1|e] d1] t1].
  - destruct (walk_loop rest st1 d1) as [[r2 d2] t2] eqn:Hw.
    intros [= <- <- <-]. right. exists st1, d1, t1, t2. by repeat split.
  - intros [= <- <- <-]. left. exists e. by split.
Qed.


(** Every event of the loop was emitted by the step of some name. *)
Lemma walk_loop_event_step (items : list walked) (st : locals) (d : fs)
    (r : result locals) (d' : fs) (t : list event) (ev : event) :
  walk_loop items st d = (r, d', t) -> ev ∈ t ->
  exists it st0 d0 r0 d0' t0,
    it ∈ items /\ file_step it st0 d0 r0 d0' t0 /\ ev ∈ t0.
Proof.
  revert st d t. induction items as [|it rest IH]; intros st d t.
  - intros [= <- <- <-] Hin. by apply not_elem_of_nil in Hin.
  - intros [(e & Hp & ->) | (st1 & d1 & t1 & t2 & Hp & Hw & ->)]%walk_loop_cons_inv
      Hin.
    + exists it, st, d, (Raise e), d', t.
      split; [left|]. split; [by apply process_file_inv | done].
    + apply elem_of_app in Hin as [Hin|Hin].
      * exists it, st, d, (Ok st1), d1, t1.
        split; [left|]. split; [by apply process_file_inv | done].
      * destruct (IH _ _ _ Hw Hin) as (it' & st0 & d0 & r0 & d0' & t0 & Hit & Hs & Hev).
        exists it', st0, d0, r0, d0', t0. split; [by right | done].
Qed.

Lemma src_path_inj (it it' : walked) :
  src_path it = src_path it' ->
  w_root it = w_root it' /\ w_file it = w_file it'.
Proof. unfold src_path. apply app_inj_tail. Qed.



(** The events of a whole run that speak about a source path come from
    the loop. *)
Lemma process_photos_events (items : list walked) (d : fs)
    (r : result stats) (d' : fs) (t : list event) :
  process_photos items d = (r, d', t) ->
  exists rw tw,
    walk_loop items (Locals (built_index d) 0 0) d = (rw, d', tw)
    /\ (forall st, rw = Ok st ->
          r = Ok (Stats (count_files items)
                        (copied_files st) (skipped_files st)))
    /\ (forall e, rw = Raise e -> r = Raise e)
    /\ (forall ev, ev ∈ tw -> ev ∈ t)
    /\ (forall ev p, ev ∈ t -> event_src ev = Some p -> ev ∈ tw).
Proof.
  rewrite process_photos_eq.
  destruct (walk_loop items _ d) as [[[st|e] dw] tw] eqn:Hw;
    intros Heq;
    match type of Heq with
    | (?r0, _, ?t0) = _ =>
        assert (r = r0 /\ d' = dw /\ t = t0) as (-> & -> & ->)
          by (by repeat split; congruence)
    end; clear Heq;
    eexists _, tw; (split; [reflexivity|]).
  - split; [by intros ? [= <-]|]. split; [done|]. split.
    + intros ev Hin. apply elem_of_app. right. apply elem_of_app. by left.
    + intros ev p [Hin|[Hin|Hin]%elem_of_app]%elem_of_app Hev; [|done|].
      * apply built_events in Hin. congruence.
      * apply list_elem_of_singleton in Hin as ->. done.
  - split; [done|]. split; [by intros ? [= <-]|]. split.
    + intros ev Hin. apply elem_of_app. by right.
    + intros ev p [Hin|Hin]%elem_of_app Hev; [|done].
      apply built_events in Hin. congruence.
Qed.

(* =================================================================== *)
(** ** Extension filtering *)
(* =================================================================== *)

(** C8: a name whose lower-cased suffix is not in [VALID_EXTENSIONS] is
    skipped by the body of the loop whatever is behind it: the count of
    skipped files grows by one, the count of copied files and the index
    stay, the tree is untouched and the only event is the skip record
    -- no stat, no read for hashing, no transfer.  In a whole run no
    other event ever speaks about the path of such a name. *)
Theorem C8_non_media_is_skipped_unread (it : walked) (st : locals) (d : fs) :
  is_media (w_file it) = false ->
  process_file it st d
    = (Ok (Locals (hash_cache st) (copied_files st) (S (skipped_files st))),
       d, [LogSkipNonMedia (src_path it)])
  /\ (forall items d0 r d' t ev,
        process_photos items d0 = (r, d', t) ->
        ev ∈ t -> event_src ev = Some (src_path it) ->
        ev = LogSkipNonMedia (src_path it))
  /\ (forall items d0 r d' t,
        process_photos items d0 = (r, d', t) ->
        ~ was_copied it t /\ HashOpen Src (src_path it) ∉ t).
Proof.
  intros Hm.
  assert (Hrun : forall items d0 r d' t ev,
    process_photos items d0 = (r, d', t) ->
    ev ∈ t -> event_src ev = Some (src_path it) ->
    ev = LogSkipNonMedia (src_path it)).
  { intros items d0 r d' t ev Hrun Hin Hev.
    destruct (process_photos_events _ _ _ _ _ Hrun)
      as (rw & tw & Hw & _ & _ & _ & Htw).
    apply (Htw ev (src_path it)) in Hin; [|done].
    destruct (walk_loop_event_step _ _ _ _ _ _ _ Hw Hin)
      as (it' & st0 & d1 & r0 & d1' & t0 & _ & Hs & Hev0).
    pose proof (file_step_events _ _ _ _ _ _ _ Hs Hev0) as Hsrc.
    rewrite Hev in Hsrc. injection Hsrc as Hsrc.
    destruct (src_path_inj _ _ Hsrc) as [_ Hfile].
    rewrite Hfile in Hm. inversion Hs; subst; try congruence.
    apply list_elem_of_singleton in Hev0. by rewrite Hsrc. }
  split; [apply file_step_run; by constructor|]. split; [exact Hrun|].
  intros items d0 r d' t Hp. split.
  - intros Hc. by specialize (Hrun _ _ _ _ _ _ Hp Hc eq_refl).
  - intros Hc. by specialize (Hrun _ _ _ _ _ _ Hp Hc eq_refl).
Qed.

(* =================================================================== *)
(** ** Content-equality detection within one run *)
(* =================================================================== *)







(* =================================================================== *)
(** ** Running twice *)
(* =================================================================== *)










(* ===================================================================== *)
(** ** Further properties: hashing *)
(* ===================================================================== *)

Lemma hexdigit_hex (x : Z) : Sha256.hexdigit x ∈ hex_chars.
Proof.
  unfold Sha256.hexdigit.
  assert (Hlt : (Z.to_nat (x mod 16) < 16)%nat).
  { pose proof (Z.mod_pos_bound x 16 eq_refl). lia. }
  destruct (Z.to_nat (x mod 16)) as [|n]; [vm_compute; set_solver|].
  do 15 (destruct n as [|n]; [vm_compute; set_solver|]). lia.
Qed.

(** X1: the digest [get_file_hash] returns is a string of 64 characters,
    each a lower-case hexadecimal digit; in particular it is never empty,
    so the tests [if file_hash:] and [if src_hash:] succeed on every
    digest that was computed. *)
Theorem hexdigest_is_64_hex_digits (bs : list byte) :
  String.length (hash_bytes bs) = 64%nat
  /\ Forall (fun c => c ∈ hex_chars) (String.list_ascii_of_string (hash_bytes bs))
  /\ truthy (Some (hash_bytes bs)) = Some (hash_bytes bs).
Proof.
  split; [by rewrite hash_bytes_eq|]. split; [|apply truthy_hash].
  rewrite hash_bytes_eq. unfold Sha256.hexdigest, Sha256.hex_word.
  set (s := Sha256.digest bs). cbn [String.list_ascii_of_string].
  repeat (apply Forall_cons; split; [apply hexdigit_hex|]).
  apply Forall_nil_2.
Qed.

(** X2: [get_file_hash] never raises and never changes the tree; it
    opens the file once; for a readable file it returns the SHA-256 of
    the whole content, whatever the size of the chunks it read, and for
    anything else it returns [None] after logging the failure. *)
Theorem get_file_hash_outcome (t : tree) (p : path) (o : option regfile)
    (d : fs) :
  exists r tr,
    get_file_hash t p o d = (Ok r, d, tr)
    /\ r = match o with
           | Some f =>
               if readable f then Some (Sha256.hexdigest (data f)) else None
           | None => None
           end
    /\ hash_reads t tr = 1%nat
    /\ (r = None <-> LogHashFailed t p ∈ tr)
    /\ truthy r = r.
Proof.
  rewrite get_file_hash_eq. eexists _, _. split; [reflexivity|].
  split.
  { destruct o as [f|]; [|done]. simpl. by rewrite hash_bytes_eq. }
  split.
  { destruct t, (readable_digest o); reflexivity. }
  split; [|apply truthy_readable_digest].
  destruct (readable_digest o); split; try done.
  - intros [H|H]%elem_of_cons; [done | by apply not_elem_of_nil in H].
  - intros _. right. left.
Qed.

Lemma read_chunks_shape_fuel (size fuel : nat) (bs : list byte) :
  (0 < size)%nat -> (length bs <= fuel)%nat ->
  Forall (fun c => (0 < length c <= size)%nat) (read_chunks fuel size bs)
  /\ (forall i c, read_chunks fuel size bs !! i = Some c ->
        (S i < length (read_chunks fuel size bs))%nat -> length c = size).
Proof.
  intros Hsize. revert bs.
  induction fuel as [|k IH]; intros bs Hlen.
  - simpl. split; [constructor|]. intros i c H. by rewrite lookup_nil in H.
  - destruct bs as [|b bs].
    { simpl. split; [constructor|]. intros i c H. by rewrite lookup_nil in H. }
    change (read_chunks (S k) size (b :: bs))
      with (firstn size (b :: bs) :: read_chunks k size (skipn size (b :: bs))).
    assert (Hrest : (length (skipn size (b :: bs)) <= k)%nat).
    { rewrite length_skipn. simpl in *. lia. }
    destruct (IH _ Hrest) as [Hall Hfull]. split.
    + constructor; [|done]. rewrite length_firstn. simpl. lia.
    + intros [|i] c Hc Hlast.
      * injection Hc as <-. rewrite length_firstn.
        destruct (skipn size (b :: bs)) as [|b' bs'] eqn:Hskip.
        -- exfalso. cbn [length] in Hlast.
           destruct k; simpl in Hlast; lia.
        -- assert (length (skipn size (b :: bs)) = S (length bs'))
             by (by rewrite Hskip).
           rewrite length_skipn in *. lia.
      * apply (Hfull i c Hc). simpl in Hlast. lia.
Qed.

(** X3: reading a file in chunks of [size] bytes, for any positive
    [size], yields chunks that put together are the file, none empty,
    none longer than [size], and all but the last of exactly [size]
    bytes: the file is never held in memory as a whole. *)
Theorem read_chunks_shape (size : nat) (bs : list byte) :
  (0 < size)%nat ->
  concat (read_chunks (length bs) size bs) = bs
  /\ Forall (fun c => (0 < length c <= size)%nat)
       (read_chunks (length bs) size bs)
  /\ (forall i c, read_chunks (length bs) size bs !! i = Some c ->
        (S i < length (read_chunks (length bs) size bs))%nat ->
        length c = size).
Proof.
  intros Hsize. split; [by apply read_chunks_concat|].
  by apply read_chunks_shape_fuel.
Qed.

(* ===================================================================== *)
(** ** Further properties: the index build *)
(* ===================================================================== *)





(* ===================================================================== *)
(** ** Further properties: the extension filter *)
(* ===================================================================== *)

Lemma lower_ascii_dot (c : ascii) :
  Ascii.eqb (lower_ascii c) "." = Ascii.eqb c ".".
Proof. destruct c as [[] [] [] [] [] [] [] []]; reflexivity. Qed.

Lemma lower_ascii_idem (c : ascii) :
  lower_ascii (lower_ascii c) = lower_ascii c.
Proof. destruct c as [[] [] [] [] [] [] [] []]; reflexivity. Qed.

Lemma lower_idem (s : string) : lower (lower s) = lower s.
Proof.
  induction s as [|c s IH]; [done|]. simpl. by rewrite lower_ascii_idem, IH.
Qed.

Lemma lower_length (s : string) : String.length (lower s) = String.length s.
Proof. induction s as [|c s IH]; [done|]. simpl. by rewrite IH. Qed.

Lemma rfind_dot_lower (s : string) (i : nat) :
  rfind_dot (lower s) i = rfind_dot s i.
Proof.
  revert i. induction s as [|c s IH]; intros i; [done|].
  simpl. by rewrite IH, lower_ascii_dot.
Qed.

Lemma substring_lower (n m : nat) (s : string) :
  String.substring n m (lower s) = lower (String.substring n m s).
Proof.
  revert n m. induction s as [|c s IH]; intros [|n] [|m]; simpl;
    rewrite ?IH; reflexivity.
Qed.

Lemma suffix_lower (name : string) : suffix (lower name) = lower (suffix name).
Proof.
  unfold suffix. rewrite rfind_dot_lower, lower_length.
  destruct (rfind_dot name 0) as [i|]; [|done].
  destruct ((0 <? i)%nat && (i <? String.length name - 1)%nat); [|done].
  apply substring_lower.
Qed.

Lemma is_media_lower (name : string) : is_media (lower name) = is_media name.
Proof. unfold is_media. by rewrite suffix_lower, lower_idem. Qed.

(** X5: the extension test ignores case throughout the name: two names
    that agree once lower-cased are both media or both not. *)
Theorem is_media_ignores_case (n1 n2 : string) :
  lower n1 = lower n2 -> is_media n1 = is_media n2.
Proof.
  intros H. by rewrite <- (is_media_lower n1), <- (is_media_lower n2), H.
Qed.

Lemma append_length (s1 s2 : string) :
  String.length (String.append s1 s2) = (String.length s1 + String.length s2)%nat.
Proof. induction s1 as [|c s1 IH]; [done|]. simpl. by rewrite IH. Qed.

Lemma substring_all (s : string) : String.substring 0 (String.length s) s = s.
Proof. induction s as [|c s IH]; [done|]. simpl. by rewrite IH. Qed.

Lemma substring_app_suffix (s1 s2 : string) :
  String.substring (String.length s1) (String.length s2) (String.append s1 s2)
  = s2.
Proof. induction s1 as [|c s1 IH]; [apply substring_all | exact IH]. Qed.

Lemma substring_split (i : nat) (s : string) :
  (i <= String.length s)%nat ->
  s = String.append (String.substring 0 i s)
        (String.substring i (String.length s - i) s)
  /\ String.length (String.substring 0 i s) = i.
Proof.
  revert i. induction s as [|c s IH]; intros i Hi.
  - destruct i; [done | simpl in Hi; lia].
  - destruct i as [|i].
    + split; [|done].
      change (String c s = String c (String.substring 0 (String.length s) s)).
      by rewrite substring_all.
    + destruct (IH i) as [Heq Hlen]; [simpl in Hi; lia|].
      split.
      * change (String c s =
                String c (String.append (String.substring 0 i s)
                            (String.substring i (String.length s - i) s))).
        by rewrite <- Heq.
      * change (S (String.length (String.substring 0 i s)) = S i).
        by rewrite Hlen.
Qed.

Lemma rfind_dot_app (s1 s2 : string) (i : nat) :
  rfind_dot (String.append s1 s2) i =
    match rfind_dot s2 (i + String.length s1) with
    | Some j => Some j
    | None => rfind_dot s1 i
    end.
Proof.
  revert i. induction s1 as [|c s1 IH]; intros i.
  - change (String.append "" s2) with s2. simpl.
    rewrite Nat.add_0_r. by destruct (rfind_dot s2 i).
  - change (String.append (String c s1) s2)
      with (String c (String.append s1 s2)). simpl.
    rewrite IH. replace (S i + String.length s1)%nat
      with (i + S (String.length s1))%nat by lia.
    by destruct (rfind_dot s2 (i + S (String.length s1))).
Qed.

Lemma valid_extension_shape (ext : string) (k : nat) :
  lower ext ∈ VALID_EXTENSIONS ->
  rfind_dot ext k = Some k /\ (4 <= String.length ext)%nat.
Proof.
  intros Hin. rewrite <- (rfind_dot_lower ext), <- (lower_length ext).
  unfold VALID_EXTENSIONS in Hin.
  repeat (apply elem_of_cons in Hin as [->|Hin]; [split; [reflexivity | simpl; lia]|]).
  by apply not_elem_of_nil in Hin.
Qed.

Lemma empty_not_valid : "" ∉ VALID_EXTENSIONS.
Proof.
  intros H. unfold VALID_EXTENSIONS in H.
  repeat (apply elem_of_cons in H as [H|H]; [discriminate H|]).
  by apply not_elem_of_nil in H.
Qed.

(** X6: a name passes the extension filter exactly when it is a
    non-empty stem followed by an extension that, lower-cased, is one of
    [VALID_EXTENSIONS].  So a name that is nothing but an extension (such
    as [.jpg]) does not pass, and only the last extension counts. *)
Theorem is_media_iff_stem_and_extension (name : string) :
  is_media name = true <->
  exists stem ext,
    name = String.append stem ext /\ stem <> ""
    /\ lower ext ∈ VALID_EXTENSIONS.
Proof.
  unfold is_media. rewrite bool_decide_eq_true. split.
  - intros Hin. unfold suffix in Hin.
    destruct (rfind_dot name 0) as [i|]; [|by apply empty_not_valid in Hin].
    destruct ((0 <? i)%nat && (i <? String.length name - 1)%nat) eqn:Hi;
      [|by apply empty_not_valid in Hin].
    apply andb_true_iff in Hi as [H0 H1].
    apply Nat.ltb_lt in H0, H1.
    destruct (substring_split i name ltac:(lia)) as [Heq Hlen].
    exists (String.substring 0 i name),
      (String.substring i (String.length name - i) name).
    split; [exact Heq|]. split; [|exact Hin].
    intros Hempty. rewrite Hempty in Hlen. simpl in Hlen. lia.
  - intros (stem & ext & -> & Hstem & Hext).
    destruct (valid_extension_shape ext (0 + String.length stem) Hext)
      as [Hdot Hlen].
    unfold suffix. rewrite rfind_dot_app, Hdot, append_length. simpl.
    assert (0 < String.length stem)%nat as Hpos.
    { destruct stem; [done | simpl; lia]. }
    assert (((0 <? String.length stem)%nat
             && (String.length stem
                   <? String.length stem + String.length ext - 1)%nat) = true)
      as ->.
    { apply andb_true_iff. split; apply Nat.ltb_lt; lia. }
    replace (String.length stem + String.length ext - String.length stem)%nat
      with (String.length ext) by lia.
    by rewrite substring_app_suffix.
Qed.

(* ===================================================================== *)
(** ** Further properties: creating the mirrored directory *)
(* ===================================================================== *)







(* ===================================================================== *)
(** ** Further properties: what a run does to the destination *)
(* ===================================================================== *)





(* ===================================================================== *)
(** ** Further properties: the counters *)
(* ===================================================================== *)

Lemma count_events_app (test : event -> bool) (t1 t2 : list event) :
  count_events test (t1 ++ t2)
  = (count_events test t1 + count_events test t2)%nat.
Proof. unfold count_events. by rewrite filter_app, length_app. Qed.

Lemma count_events_nil (test : event -> bool) : count_events test [] = 0%nat.
Proof. reflexivity. Qed.

Lemma count_events_cons (test : event -> bool) (ev : event) (t : list event) :
  count_events test (ev :: t)
  = ((if test ev then 1 else 0) + count_events test t)%nat.
Proof.
  unfold count_events. rewrite filter_cons.
  destruct (test ev); [by rewrite decide_True | by rewrite decide_False].
Qed.

Lemma classify_counts (p : path) (f : regfile) (cache : gmap string path)
    (entries : list (path * node)) (b : bool) (tr : list event) :
  classify p f cache entries = (b, tr) ->
  count_events is_copied_event tr = 0%nat
  /\ count_events is_skip_event tr = 0%nat
  /\ count_events is_error_event tr = 0%nat.
Proof.
  unfold classify. destruct (existsb _ entries); [|by intros [= <- <-]].
  destruct (readable f); [destruct (cache !! _)|]; intros [= <- <-];
    rewrite ?count_events_cons, ?count_events_nil; done.
Qed.

Lemma file_step_counts (it : walked) (st st' : locals) (d d' : fs)
    (t : list event) :
  file_step it st d (Ok st') d' t ->
  copied_files st' = (copied_files st + count_events is_copied_event t)%nat
  /\ skipped_files st' = (skipped_files st + count_events is_skip_event t)%nat
  /\ (count_events is_copied_event t + count_events is_skip_event t
      + count_events is_error_event t = 1)%nat.
Proof.
  intros Hs. inversion Hs; subst;
    try match goal with H : classify _ _ _ _ = _ |- _ =>
          apply classify_counts in H as (Hc1 & Hc2 & Hc3) end;
    rewrite ?count_events_app, ?count_events_cons, ?count_events_nil,
      ?Hc1, ?Hc2, ?Hc3; simpl; repeat split; lia.
Qed.

Lemma walk_loop_counts (items : list walked) (st st' : locals) (d d' : fs)
    (t : list event) :
  walk_loop items st d = (Ok st', d', t) ->
  copied_files st' = (copied_files st + count_events is_copied_event t)%nat
  /\ skipped_files st' = (skipped_files st + count_events is_skip_event t)%nat
  /\ (count_events is_copied_event t + count_events is_skip_event t
      + count_events is_error_event t = length items)%nat.
Proof.
  revert st d t. induction items as [|it rest IH]; intros st d t Hw.
  - injection Hw as <- <- <-. rewrite !count_events_nil. simpl.
    repeat split; lia.
  - apply walk_loop_cons_inv in Hw
      as [(e & _ & [=]) | (st1 & d1 & t1 & t2 & Hs & Hw & ->)].
    apply process_file_inv, file_step_counts in Hs as (Hc & Hk & Hone).
    apply IH in Hw as (Hc' & Hk' & Hall).
    rewrite !count_events_app. simpl. repeat split; lia.
Qed.

(** X9: in a run that completes, the count of copied files is the
    number of successful transfers recorded, the count of skipped files
    is the number of skip records, and every walked name is exactly one
    of copied, skipped or a logged copy error: the files that are in
    neither counter are those whose transfer failed.  [total_files]
    counts the names that resolve to a file, which can be fewer than the
    names walked. *)
Theorem run_counters_account_for_every_name (items : list walked) (d : fs)
    (s : stats) (d' : fs) (t : list event) :
  process_photos items d = (Ok s, d', t) ->
  copied_total s = count_events is_copied_event t
  /\ skipped_total s = count_events is_skip_event t
  /\ (copied_total s + skipped_total s + count_events is_error_event t
      = length items)%nat
  /\ total s = count_files items
  /\ (total s <= length items)%nat.
Proof.
  rewrite process_photos_eq.
  destruct (walk_loop items _ d) as [[[st|e] dw] tw] eqn:Hw; [|done].
  intros Heq.
  assert (s = Stats (count_files items) (copied_files st) (skipped_files st)
          /\ t = build_trace d ++ tw ++
                   [LogBackupComplete (copied_files st) (skipped_files st)
                      (count_files items)]) as [-> ->]
    by (split; congruence).
  clear Heq. apply walk_loop_counts in Hw as (Hc & Hk & Hall).
  simpl in Hc, Hk. cbn [copied_total skipped_total total].
  assert (Hb : forall test,
            (test = is_copied_event \/ test = is_skip_event
             \/ test = is_error_event) ->
            count_events test (build_trace d) = 0%nat).
  { intros test Htest. unfold build_trace.
    rewrite count_events_cons, count_events_app, count_events_cons,
      count_events_nil.
    assert (Hmid : count_events test (concat (map index_events (rglob d)))
                   = 0%nat).
    { induction (rglob d) as [|[q n] rest IH]; [done|]. simpl.
      rewrite count_events_app, IH. unfold index_events. simpl.
      destruct (is_file n); [|done].
      destruct (digest_of n), Htest as [->|[->| ->]];
        rewrite ?count_events_cons, ?count_events_nil; done. }
    rewrite Hmid. by destruct Htest as [->|[->| ->]]. }
  rewrite !count_events_app, !Hb by auto.
  rewrite !count_events_cons, !count_events_nil. simpl.
  repeat split; try lia.
  unfold count_files. apply length_filter.
Qed.

(* ===================================================================== *)
(** ** Further properties: what aborts a run *)
(* ===================================================================== *)


(** X11: when the body of the loop raises on a name, the run ends there:
    [process_photos] raises the same exception, returns no statistics and
    logs no summary, the tree is the one the names before had left, and
    the names after are never looked at -- the outcome is the same
    whatever follows in the walk. *)
Theorem run_ends_where_the_body_raises (l1 l2 : list walked) (it : walked)
    (d d1 d2 : fs) (st1 : locals) (t1 ti : list event) (e : exn) :
  walk_loop l1 (Locals (built_index d) 0 0) d = (Ok st1, d1, t1) ->
  process_file it st1 d1 = (Raise e, d2, ti) ->
  d2 = d1
  /\ process_photos (l1 ++ it :: l2) d
     = (Raise e, d1, build_trace d ++ t1 ++ ti)
  /\ process_photos (l1 ++ it :: l2) d = process_photos (l1 ++ [it]) d.
Proof.
  intros Hw Hp.
  assert (d2 = d1) as ->.
  { apply process_file_inv in Hp. by inversion Hp. }
  assert (Hany : forall l, process_photos (l1 ++ it :: l) d
                 = (Raise e, d1, build_trace d ++ t1 ++ ti)).
  { intros l. by rewrite process_photos_eq, walk_loop_app, Hw,
      walk_loop_cons, Hp. }
  split; [done|]. split; [apply Hany|]. by rewrite !Hany.
Qed.

(* ===================================================================== *)
(** ** Further properties: what a run leaves in the destination *)
(* ===================================================================== *)




(* ===================================================================== *)
(** ** Further properties: the checks before the run *)
(* ===================================================================== *)

Lemma find_in_spec (paths : list (candidate * probe)) :
  match find_in paths with
  | (ns, Returned c) =>
      exists l1 l2,
        paths = l1 ++ (c, Found) :: l2
        /\ (forall c' pr, (c', pr) ∈ l1 -> pr <> Found)
        /\ ns = warnings l1 ++ [LogFoundOriginals c]
  | (ns, Failed f) =>
      f = NoOriginalsFolder
      /\ (forall c pr, (c, pr) ∈ paths -> pr <> Found)
      /\ ns = warnings paths ++ [LogNoOriginals]
  | (ns, Interrupted) => False
  end.
Proof.
  induction paths as [|[c pr] rest IH].
  - simpl. split; [done|]. split; [|done].
    intros c pr H. by apply not_elem_of_nil in H.
  - destruct pr; simpl.
    + exists [], rest. split; [done|]. split; [|done].
      intros c' pr H. by apply not_elem_of_nil in H.
    + destruct (find_in rest) as [ns [c0|f|]]; [| |done].
      * destruct IH as (l1 & l2 & -> & Hno & ->).
        exists ((c, Missing) :: l1), l2. split; [done|]. split; [|done].
        intros c' pr [[= -> ->]|H]%elem_of_cons; [done | by eapply Hno].
      * destruct IH as (-> & Hno & ->). split; [done|]. split; [|done].
        intros c' pr [[= -> ->]|H]%elem_of_cons; [done | by eapply Hno].
    + unfold s_bind, s_note. simpl.
      destruct (find_in rest) as [ns [c0|f|]]; [| |done].
      * destruct IH as (l1 & l2 & -> & Hno & ->).
        exists ((c, Forbidden) :: l1), l2. split; [done|]. split; [|done].
        intros c' pr [[= -> ->]|H]%elem_of_cons; [done | by eapply Hno].
      * destruct IH as (-> & Hno & ->). split; [done|]. split; [|done].
        intros c' pr [[= -> ->]|H]%elem_of_cons; [done | by eapply Hno].
Qed.

(** X14: [find_originals_path] returns the first of [originals],
    [Masters], [resources/media] that exists; a folder it may not look
    at is passed over with a warning, like a missing one; it raises
    [FileNotFoundError] exactly when none of the three is found, and
    nothing else ever comes out of it. *)
Theorem find_originals_path_first_found (h : host) :
  match find_originals_path h with
  | (ns, Returned c) =>
      exists l1 l2,
        possible_paths h = l1 ++ (c, Found) :: l2
        /\ (forall c' pr, (c', pr) ∈ l1 -> pr <> Found)
        /\ ns = warnings l1 ++ [LogFoundOriginals c]
  | (ns, Failed f) =>
      f = NoOriginalsFolder
      /\ exists_originals h <> Found /\ exists_masters h <> Found
      /\ exists_resources_media h <> Found
      /\ ns = warnings (possible_paths h) ++ [LogNoOriginals]
  | (ns, Interrupted) => False
  end.
Proof.
  unfold find_originals_path.
  pose proof (find_in_spec (possible_paths h)) as Hspec.
  destruct (find_in (possible_paths h)) as [ns [c|f|]]; [done | | done].
  destruct Hspec as (-> & Hno & ->). split; [done|].
  unfold possible_paths in Hno.
  repeat split; try done.
  - apply (Hno Originals). left.
  - apply (Hno Masters). right. left.
  - apply (Hno ResourcesMedia). right. right. left.
Qed.

Lemma s_bind_quiet {A B} (m : Check A) (k : A -> Check B) :
  Forall (fun n => is_check_notice n = true) m.1 ->
  (forall a, Forall (fun n => is_check_notice n = true) (k a).1) ->
  Forall (fun n => is_check_notice n = true) (s_bind m k).1.
Proof.
  intros Hm Hk. destruct m as [n1 [a|f|]]; simpl in *; [|done|done].
  specialize (Hk a). destruct (k a) as [n2 o]. simpl in *.
  by apply Forall_app.
Qed.

Lemma warnings_quiet (paths : list (candidate * probe)) :
  Forall (fun n => is_check_notice n = true) (warnings paths).
Proof.
  induction paths as [|[c pr] rest IH]; [constructor|].
  unfold warnings. simpl. apply Forall_app. split; [|exact IH].
  destruct pr; repeat constructor.
Qed.

Lemma find_originals_path_quiet (h : host) :
  Forall (fun n => is_check_notice n = true) (find_originals_path h).1.
Proof.
  pose proof (find_originals_path_first_found h) as Hf.
  destruct (find_originals_path h) as [ns [c|f|]]; simpl; [| |done].
  - destruct Hf as (l1 & l2 & _ & _ & ->).
    apply Forall_app. split; [apply warnings_quiet | by repeat constructor].
  - destruct Hf as (_ & _ & _ & _ & ->).
    apply Forall_app. split; [apply warnings_quiet | by repeat constructor].
Qed.

Lemma startup_quiet (h : host) :
  Forall (fun n => is_check_notice n = true) (startup h).1.
Proof.
  unfold startup. apply s_bind_quiet.
  { unfold check_mount. destruct (destination h); by repeat constructor. }
  intros _. apply s_bind_quiet.
  { unfold check_permissions, retry_listing.
    destruct (first_listing h), (prompt h), (second_listing h);
      by repeat constructor. }
  intros [|]; [|constructor].
  apply s_bind_quiet; [apply find_originals_path_quiet|].
  intros c. apply s_bind_quiet; [by repeat constructor|].
  intros _. apply s_bind_quiet; [|constructor].
  unfold mkdir_destination. destruct (destination h); constructor.
Qed.

Lemma startup_outcome (h : host) :
  match (startup h).2 with
  | Returned c =>
      destination h = RootDirectory
      /\ (first_listing h = Listed
          \/ (first_listing h = Denied /\ prompt h = Entered
              /\ second_listing h = Listed))
      /\ (c, Found) ∈ possible_paths h
  | Failed f =>
      (forall e, f <> EngineError e)
      /\ (f = DestinationNotMounted <-> destination h = RootAbsent)
  | Interrupted =>
      destination h <> RootAbsent
      /\ first_listing h = Denied /\ prompt h = CtrlC
  end.
Proof.
  pose proof (find_originals_path_first_found h) as Hf.
  unfold startup, check_mount, check_permissions, retry_listing,
    mkdir_destination.
  destruct (find_originals_path h) as [n3 [c|f|]]; [| |done].
  - destruct Hf as (l1 & l2 & Hpaths & _ & _).
    assert ((c, Found) ∈ possible_paths h) as Hin.
    { rewrite Hpaths. apply elem_of_app. right. left. }
    destruct (destination h), (first_listing h), (prompt h),
      (second_listing h); simpl; repeat split; try done; auto.
  - destruct Hf as (-> & _).
    destruct (destination h), (first_listing h), (prompt h),
      (second_listing h); simpl; repeat split; try done.
Qed.

Lemma startup_not_mounted (h : host) :
  destination h = RootAbsent ->
  startup h = ([LogDestinationNotMounted], Failed DestinationNotMounted).
Proof. intros Hd. unfold startup, check_mount. by rewrite Hd. Qed.

Lemma quiet_no_engine (ns : list notice) :
  Forall (fun n => is_check_notice n = true) ns ->
  Forall (fun n => is_engine_notice n = false) ns
  /\ (PrintBackupComplete ∉ ns)
  /\ (forall f, PrintBackupFailed f ∉ ns).
Proof.
  intros Hq. split; [|split].
  - eapply Forall_impl; [exact Hq|]. by intros [].
  - intros Hin. rewrite Forall_forall in Hq. by specialize (Hq _ Hin).
  - intros f Hin. rewrite Forall_forall in Hq. by specialize (Hq _ Hin).
Qed.

(** X15: a run that fails in the checks, or is interrupted at the
    prompt, has left the destination tree as it was and has run nothing
    of the engine -- no index build, no hashing, no transfer.  When the
    destination is not mounted nothing else is checked.  The engine runs
    only with the destination a directory, the library listed (at once
    or after the prompt) and one of the folders found; what then comes
    out is what the engine returns or raises. *)
Theorem checks_precede_every_effect (h : host) (d : fs) :
  match process_photos_whole h d with
  | (ns, Returned s, d') =>
      exists c t,
        process_photos (tree_of h c) d = (Ok s, d', t)
        /\ (c, Found) ∈ possible_paths h
        /\ destination h = RootDirectory
        /\ PrintBackupComplete ∈ ns
  | (ns, Failed (EngineError e), d') =>
      exists c t,
        process_photos (tree_of h c) d = (Raise e, d', t)
        /\ (c, Found) ∈ possible_paths h
        /\ destination h = RootDirectory
        /\ PrintBackupComplete ∉ ns
  | (ns, Failed _, d') =>
      d' = d
      /\ Forall (fun n => is_engine_notice n = false) ns
      /\ (destination h = RootAbsent -> ns = [LogDestinationNotMounted])
      /\ PrintBackupComplete ∉ ns
  | (ns, Interrupted, d') =>
      d' = d
      /\ Forall (fun n => is_engine_notice n = false) ns
      /\ first_listing h = Denied /\ prompt h = CtrlC
  end.
Proof.
  unfold process_photos_whole.
  pose proof (startup_outcome h) as Ho.
  destruct (quiet_no_engine _ (startup_quiet h)) as (Hne & Hnp & _).
  pose proof (startup_not_mounted h) as Hnm.
  destruct (startup h) as [ns [c|f|]]; simpl in *.
  - destruct Ho as (Hd & _ & Hc).
    destruct (process_photos (tree_of h c) d) as [[[s|e] d'] t] eqn:Hp.
    + exists c, t. repeat split; try done.
      apply elem_of_app. right. apply elem_of_app. right. left.
    + exists c, t. repeat split; try done.
      intros [H|H]%elem_of_app; [done|].
      apply list_elem_of_In, in_map_iff in H as (ev & Hev & _). done.
  - destruct Ho as (Hnoeng & _).
    destruct f; try (by specialize (Hnoeng e)); repeat split; try done;
      intros Habs; specialize (Hnm Habs); congruence.
  - destruct Ho as (_ & Hl & Hk). by repeat split.
Qed.


(* ===================================================================== *)
(** ** Further properties: [copy_file_to_backup] *)
(* ===================================================================== *)



(** X19: when the source exists and cannot be read,
    [copy_file_to_backup] prints that permission was denied when trying
    to write to the destination: the handler of [PermissionError] names
    the destination although it is the read that failed, and nothing is
    written. *)
Theorem unreadable_source_is_reported_as_destination
    (writable : path -> bool) (src dst : path) (d : fs) (n : node)
    (f : regfile) :
  node_at d src = Some n -> resolve n = Some f -> readable f = false ->
  copy_target d src dst <> src ->
  special_at d (copy_target d src dst) = false ->
  copy_file_to_backup writable src dst d = (PrintPermissionDenied dst, d).
Proof.
  intros Hn Hf Hr Hne Hsp.
  unfold copy_file_to_backup, copy2, copyfile.
  rewrite bool_decide_eq_false_2 by done. simpl.
  assert (special_at d src = false) as ->.
  { unfold special_at. rewrite Hn. by destruct n. }
  rewrite Hsp, Hn. simpl.
  assert (is_dir n = false) as -> by (by destruct n).
  by rewrite Hf, Hr.
Qed.
End Engine.

(* ===================================================================== *)
(** ** The engine on concrete trees *)
(* ===================================================================== *)

(** Test vectors of FIPS 180-4: the empty message, ["abc"], and a message
    that needs two blocks. *)
Example sha256_constants :
  length Sha256.K = 64%nat
  /\ (nth 0 Sha256.K 0 = 0x428a2f98 /\ nth 63 Sha256.K 0 = 0xc67178f2)%Z
  /\ (Sha256.ra Sha256.H0 = 0x6a09e667 /\ Sha256.rh Sha256.H0 = 0x5be0cd19)%Z.
Proof. vm_compute. repeat split. Qed.

Example sha256_empty :
  Sha256.hexdigest [] =
    "e3b0c44298fc1c149afbf4c8996fb92427ae41e4649b934ca495991b7852b855".
Proof. vm_compute. reflexivity. Qed.

Example sha256_abc :
  Sha256.hexdigest ["a"%byte; "b"%byte; "c"%byte] =
    "ba7816bf8f01cfea414140de5dae2223b00361a396177a9cb410ff61f20015ad".
Proof. vm_compute. reflexivity. Qed.

Example sha256_two_blocks :
  Sha256.hexdigest
    (String.list_byte_of_string
       "abcdbcdecdefdefgefghfghighijhijkijkljklmklmnlmnomnopnopq") =
    "248d6a61d20638b8e5c026930c3e6039a33ce45964ff2167f6ecedd419db06c1".
Proof. vm_compute. reflexivity. Qed.

Example suffix_samples :
  map suffix ["a.jpg"; ".bashrc"; "foo."; "a.b.c"; "noext"; "x.JPEG"]
    = [".jpg"; ""; ""; ".c"; ""; ".JPEG"].
Proof. reflexivity. Qed.

Example is_media_samples :
  map is_media ["a.jpg"; "b.JPG"; "c.png"; "d.txt"; ".jpg"; "movie.MoV"]
    = [true; true; true; false; false; true].
Proof. vm_compute. reflexivity. Qed.

(** The first scenario of the specification: two files copied, two
    skipped, four in total, and the events in the order they happen. *)
Example scenario_run :
  (process_photos never_fails scenario_walk ∅).1.1 = Ok (Stats 4 2 2)
  /\ (process_photos never_fails scenario_walk ∅).2 =
       [LogBuilding; LogCacheBuilt 0;
        LogCopied ["a.jpg"] []; HashOpen Src ["a.jpg"];
        HashOpen Src ["sub"; "b.JPG"];
        LogDuplicateFound ["sub"; "b.JPG"] ["a.jpg"];
        LogSkipDuplicate ["sub"; "b.JPG"];
        HashOpen Src ["c.png"]; LogCopied ["c.png"] [];
        HashOpen Src ["c.png"];
        LogSkipNonMedia ["d.txt"]; LogBackupComplete 2 2 4].
Proof. split; vm_compute; reflexivity. Qed.

(** The second scenario: the content is in the destination under another
    path; nothing is copied, one file is skipped. *)
Example scenario_other_path :
  (process_photos never_fails [a_jpg]
     {[ ["2019"; "z.jpg"] := Regular photo_x ]}).1.1
  = Ok (Stats 1 0 1).
Proof. vm_compute. reflexivity. Qed.

(* ===================================================================== *)
(** ** Where the code departs from the specification *)
(* ===================================================================== *)

(** C1 as the specification words it fails: [u.jpg] is unreadable and
    the destination holds a file of its size, so the classifier asks for
    the hash and the hash fails; the classifier raises nothing and
    answers "not a duplicate". *)
Lemma C1_counterexample :
  (get_file_hash Src ["u.jpg"] (Some locked_x) old_dest).1.1 = Ok None
  /\ has_size old_dest (length (data locked_x))
  /\ (check_duplicate ["u.jpg"] (Present locked_x) ∅ old_dest).1.1 = Ok false
  /\ ~ (exists e,
          (check_duplicate ["u.jpg"] (Present locked_x) ∅ old_dest).1.1
          = Raise e).
Proof.
  split; [vm_compute; reflexivity|]. split.
  - exists ["old.jpg"], (Regular photo_y).
    split; [vm_compute; reflexivity|]. split; reflexivity.
  - split; [vm_compute; reflexivity|].
    intros [e He]. vm_compute in He. discriminate He.
Qed.



(* ===================================================================== *)
(** ** The theorems at concrete inputs *)
(* ===================================================================== *)

Lemma C1_witness :
  get_file_hash Src ["u.jpg"] (Some locked_x) old_dest =
    (Ok None, old_dest, [HashOpen Src ["u.jpg"]; LogHashFailed Src ["u.jpg"]])
  /\ check_duplicate ["u.jpg"] (Present locked_x) ∅ old_dest =
       (Ok false, old_dest,
        [HashOpen Src ["u.jpg"]; LogHashFailed Src ["u.jpg"]]).
Proof.
  apply (C1_hash_failure_answers_not_duplicate ["u.jpg"] locked_x ∅ old_dest).
  - reflexivity.
  - exists ["old.jpg"], (Regular photo_y).
    split; [vm_compute; reflexivity|]. split; reflexivity.
Defined.


Lemma C9_witness :
  check_duplicate ["a.jpg"] (Present photo_x) ∅
    {[ ["z.bin"] := Regular notes_z ]}
    = (Ok false, {[ ["z.bin"] := Regular notes_z ]}, [])
  /\ check_duplicate ["c.png"] (Present photo_y) ∅
       {[ ["z.bin"] := Regular notes_z ]}
     = (Ok false, {[ ["z.bin"] := Regular notes_z ]}, [])
  /\ hash_reads Src
       (check_duplicate ["a.jpg"] (Present photo_x) ∅
          {[ ["z.bin"] := Regular notes_z ]}).2 = 0%nat.
Proof.
  apply (C9_size_mismatch_skips_hashing ["a.jpg"] ["c.png"] photo_x photo_y ∅
           {[ ["z.bin"] := Regular notes_z ]}).
  - reflexivity.
  - intros H. apply existsb_size_match in H. vm_compute in H. discriminate H.
Defined.

Lemma C8_witness :
  process_file never_fails d_txt (Locals ∅ 0 0) ∅
    = (Ok (Locals ∅ 0 1), ∅, [LogSkipNonMedia ["d.txt"]])
  /\ (forall items d0 r d' t ev,
        process_photos never_fails items d0 = (r, d', t) ->
        ev ∈ t -> event_src ev = Some ["d.txt"] ->
        ev = LogSkipNonMedia ["d.txt"])
  /\ (forall items d0 r d' t,
        process_photos never_fails items d0 = (r, d', t) ->
        ~ was_copied d_txt t /\ HashOpen Src ["d.txt"] ∉ t).
Proof.
  apply (C8_non_media_is_skipped_unread never_fails d_txt (Locals ∅ 0 0) ∅).
  vm_compute. reflexivity.
Defined.





(* ===================================================================== *)
(** ** The further properties at concrete inputs *)
(* ===================================================================== *)

Lemma read_chunks_shape_witness :
  concat (read_chunks (length five_bytes) 2 five_bytes) = five_bytes
  /\ Forall (fun c => (0 < length c <= 2)%nat)
       (read_chunks (length five_bytes) 2 five_bytes)
  /\ (forall i c,
        read_chunks (length five_bytes) 2 five_bytes !! i = Some c ->
        (S i < length (read_chunks (length five_bytes) 2 five_bytes))%nat ->
        length c = 2%nat).
Proof. apply (read_chunks_shape 2 five_bytes). lia. Defined.

Lemma is_media_ignores_case_witness :
  is_media "IMG_0001.JPG" = is_media "img_0001.jpg".
Proof.
  apply (is_media_ignores_case "IMG_0001.JPG" "img_0001.jpg"). reflexivity.
Defined.


Lemma run_counters_account_for_every_name_witness :
  copied_total (Stats 3 1 1)
  = count_events is_copied_event
      (process_photos fails_on_c [a_jpg; c_png; d_txt] ∅).2
  /\ skipped_total (Stats 3 1 1)
     = count_events is_skip_event
         (process_photos fails_on_c [a_jpg; c_png; d_txt] ∅).2
  /\ (copied_total (Stats 3 1 1) + skipped_total (Stats 3 1 1)
      + count_events is_error_event
          (process_photos fails_on_c [a_jpg; c_png; d_txt] ∅).2
      = length [a_jpg; c_png; d_txt])%nat
  /\ total (Stats 3 1 1) = count_files [a_jpg; c_png; d_txt]
  /\ (total (Stats 3 1 1) <= length [a_jpg; c_png; d_txt])%nat.
Proof.
  apply (run_counters_account_for_every_name fails_on_c
           [a_jpg; c_png; d_txt] ∅ (Stats 3 1 1)
           (process_photos fails_on_c [a_jpg; c_png; d_txt] ∅).1.2
           (process_photos fails_on_c [a_jpg; c_png; d_txt] ∅).2).
  vm_compute. reflexivity.
Defined.

Lemma run_ends_where_the_body_raises_witness :
  ({[ ["a.jpg"] := Regular photo_x ]} : fs)
  = {[ ["a.jpg"] := Regular photo_x ]}
  /\ process_photos never_fails ([a_jpg] ++ gone_jpg :: [c_png; d_txt]) ∅
     = (Raise FileNotFoundError, {[ ["a.jpg"] := Regular photo_x ]},
        build_trace ∅
          ++ [LogCopied ["a.jpg"] []; HashOpen Src ["a.jpg"]] ++ [])
  /\ process_photos never_fails ([a_jpg] ++ gone_jpg :: [c_png; d_txt]) ∅
     = process_photos never_fails ([a_jpg] ++ [gone_jpg]) ∅.
Proof.
  apply (run_ends_where_the_body_raises never_fails [a_jpg] [c_png; d_txt]
           gone_jpg ∅ {[ ["a.jpg"] := Regular photo_x ]}
           {[ ["a.jpg"] := Regular photo_x ]}
           (Locals {[ hash_bytes bytes_x := ["a.jpg"] ]} 1 0)
           [LogCopied ["a.jpg"] []; HashOpen Src ["a.jpg"]] []
           FileNotFoundError).
  - vm_compute. reflexivity.
  - vm_compute. reflexivity.
Defined.




Lemma unreadable_source_witness :
  copy_file_to_backup always_writable ["home"; "locked.jpg"]
    ["home"; "copy.jpg"] home_tree
  = (PrintPermissionDenied ["home"; "copy.jpg"], home_tree).
Proof.
  apply (unreadable_source_is_reported_as_destination always_writable
           ["home"; "locked.jpg"] ["home"; "copy.jpg"] home_tree
           (Regular locked_x) locked_x).
  - vm_compute. reflexivity.
  - reflexivity.
  - reflexivity.
  - vm_compute. discriminate.
  - vm_compute. reflexivity.
Defined.
